(** * Event emission of the C++ tracing bindings (wtf/event.h)

    A shallow embedding of [bindings/cpp/include/wtf/event.h]: the argument
    emitters [ArgTypeDef<T>::Emit], the wire-id allocator, the event registry
    and the three class templates [EventIf], [ScopedEventIf] and
    [AutoScopeIf], each in its enabled and in its disabled specialisation.

    C++ objects that are reached through pointers ([EventBuffer*]) live in a
    heap indexed by addresses; a null pointer is [None].  Code that reads the
    clock, the thread-local slot or the registry runs in a state monad over
    [World]; dereferencing an address that holds no buffer has no defined
    behaviour in C++ and is the failure of that monad. *)

From Stdlib Require Import ZArith Lia.
From stdpp Require Import gmap strings list fin_maps.

Local Open Scope Z_scope.

(** ** Integer conversions

    The implicit conversions of C++ between the integer types that occur in
    the header, on mathematical integers. *)

Definition to_uint16 (x : Z) : Z := x mod 2 ^ 16.
Definition to_uint32 (x : Z) : Z := x mod 2 ^ 32.
Definition to_int32 (x : Z) : Z := (x + 2 ^ 31) mod 2 ^ 32 - 2 ^ 31.

Definition is_uint32 (x : Z) : Prop := 0 <= x < 2 ^ 32.
Definition is_int16 (x : Z) : Prop := - 2 ^ 15 <= x < 2 ^ 15.
Definition is_int32 (x : Z) : Prop := - 2 ^ 31 <= x < 2 ^ 31.

(** ** wtf/buffer.h: the string table and the event buffer *)

Module StringTable.

Record t : Type := Make {
  string_to_id_ : gmap string Z;
  strings_ : list string
}.

Definition empty : t := {| string_to_id_ := ∅; strings_ := [] |}.

(** Modelled from the spec: [StringTable::kEmptyStringId] is declared in
    wtf/buffer.h; id 0 is reserved for the empty string. *)
Definition kEmptyStringId : Z := 0.

(** Modelled from the spec: [StringTable::GetStringId] is defined in
    wtf/buffer.h.  It returns the id of [s], inserting it if absent; the
    empty string has id 0 and is never inserted; ids are handed out in
    insertion order beginning at 1. *)
Definition GetStringId (s : string) (st : t) : Z * t :=
  if decide (s = EmptyString) then (kEmptyStringId, st)
  else match string_to_id_ st !! s with
       | Some id => (id, st)
       | None =>
           let id := Z.of_nat (length (strings_ st)) + 1 in
           (id, {| string_to_id_ := <[s := id]> (string_to_id_ st);
                   strings_ := strings_ st ++ [s] |})
       end.

End StringTable.

Module EventBuffer.

(** Modelled from the spec: the class is defined in wtf/buffer.h.  A buffer
    is its 32-bit entries and its string table; growth is bounded by a soft
    cap in bytes, and a sticky flag tells that the buffer has overflowed. *)
Record t : Type := Make {
  entries_ : list Z;
  string_table_ : StringTable.t;
  overflow_ : bool;
  soft_cap_ : Z
}.

(** A new buffer with the soft cap [soft_cap]. *)
Definition create (soft_cap : Z) : t :=
  {| entries_ := []; string_table_ := StringTable.empty;
     overflow_ := false; soft_cap_ := soft_cap |}.

(** A new buffer with room for 1024 entries. *)
Definition empty : t := create 4096.

(** The bytes the entries take. *)
Definition size_bytes (b : t) : Z := 4 * Z.of_nat (length (entries_ b)).

(** Modelled from the spec: [EventBuffer::AddEntry] is defined in
    wtf/buffer.h; [add_entry(u32)] appends one 32-bit entry at the tail.
    Its parameter is a [uint32_t], so the argument is converted.  Once the
    overflow flag is set every write is dropped; a write that would grow
    the buffer beyond its soft cap (memory exhausted) is dropped and sets
    the flag, the entries recorded so far are kept. *)
Definition AddEntry (value : Z) (b : t) : t :=
  if overflow_ b then b
  else if size_bytes b + 4 <=? soft_cap_ b
       then {| entries_ := entries_ b ++ [to_uint32 value];
               string_table_ := string_table_ b;
               overflow_ := overflow_ b;
               soft_cap_ := soft_cap_ b |}
       else {| entries_ := entries_ b;
               string_table_ := string_table_ b;
               overflow_ := true;
               soft_cap_ := soft_cap_ b |}.

Definition with_string_table (st : StringTable.t) (b : t) : t :=
  {| entries_ := entries_ b; string_table_ := st;
     overflow_ := overflow_ b; soft_cap_ := soft_cap_ b |}.

(** The buffer has not overflowed and [n] more entries stay within its
    soft cap. *)
Definition has_room (n : nat) (b : t) : bool :=
  negb (overflow_ b) && (size_bytes b + 4 * Z.of_nat n <=? soft_cap_ b).

End EventBuffer.

(** ** Event classes, argument types and argument values *)

Inductive EventClass : Type := kInstance | kScoped.

(** The types [T] for which [ArgTypeDef<T>] is specialised. *)
Inductive ArgType : Type :=
| T_cstr     (* const char* *)
| T_uint16   (* uint16_t *)
| T_uint32   (* uint32_t *)
| T_int16    (* int16_t *)
| T_int32.   (* int32_t *)

(** A value of one of these types.  A [const char*] is null ([None]) or
    points to a string. *)
Inductive ArgValue : Type :=
| V_cstr (value : option string)
| V_uint16 (value : Z)
| V_uint32 (value : Z)
| V_int16 (value : Z)
| V_int32 (value : Z).

(** ** The process state *)

Definition addr : Type := positive.

Module EventDefinition.

(** [argument_zipper_] points to [ArgumentZipper<ArgTypes...>]; the
    instantiation is identified by its type list. *)
Record t : Type := Make {
  wire_id_ : Z;
  event_class_ : EventClass;
  flags_ : Z;
  name_spec_ : option string;
  argument_zipper_ : list ArgType
}.

Definition Create (ArgTypes : list ArgType) (wire_id : Z)
    (event_class : EventClass) (flags : Z) (name_spec : option string) : t :=
  {| wire_id_ := wire_id; event_class_ := event_class; flags_ := flags;
     name_spec_ := name_spec; argument_zipper_ := ArgTypes |}.

Definition wire_id (d : t) : Z := wire_id_ d.

End EventDefinition.

Record World : Type := mkWorld {
  (** [EventDefinition::next_event_id_], a [platform::atomic<int>] *)
  next_event_id_ : Z;
  (** [EventRegistry::event_definitions_] of the singleton registry *)
  event_definitions_ : list EventDefinition.t;
  (** the [EventBuffer] objects alive, by address *)
  heap_ : gmap addr EventBuffer.t;
  (** the calling thread's value for [internal::event_buffer_key] *)
  event_buffer_key : option addr;
  (** the microsecond clock: its value at the n-th reading *)
  micros_ : nat -> Z;
  (** how often the clock has been read *)
  clock_reads_ : nat
}.

Definition set_next_event_id (n : Z) (w : World) : World :=
  mkWorld n (event_definitions_ w) (heap_ w) (event_buffer_key w)
          (micros_ w) (clock_reads_ w).

Definition set_event_definitions (ds : list EventDefinition.t) (w : World)
    : World :=
  mkWorld (next_event_id_ w) ds (heap_ w) (event_buffer_key w)
          (micros_ w) (clock_reads_ w).

Definition set_heap (h : gmap addr EventBuffer.t) (w : World) : World :=
  mkWorld (next_event_id_ w) (event_definitions_ w) h (event_buffer_key w)
          (micros_ w) (clock_reads_ w).

Definition set_event_buffer_key (k : option addr) (w : World) : World :=
  mkWorld (next_event_id_ w) (event_definitions_ w) (heap_ w) k
          (micros_ w) (clock_reads_ w).

Definition set_clock_reads (n : nat) (w : World) : World :=
  mkWorld (next_event_id_ w) (event_definitions_ w) (heap_ w)
          (event_buffer_key w) (micros_ w) n.

(** ** The monad the code runs in *)

Definition M (A : Type) : Type := World -> option (A * World).

Definition ret {A : Type} (a : A) : M A := fun w => Some (a, w).

Definition bind {A B : Type} (m : M A) (k : A -> M B) : M B :=
  fun w => match m w with
           | Some (a, w') => k a w'
           | None => None
           end.

Notation "'let*' x ':=' m 'in' k" := (bind m (fun x => k))
  (at level 10, x name, m at level 200, k at level 200,
   format "'[v' 'let*'  x  :=  m  'in' '/' k ']'").
Notation "m '>>' k" := (bind m (fun _ => k))
  (at level 62, right associativity).

(** An [EventBuffer*]: null, or the address of a buffer. *)
Definition ptr : Type := option addr.
Definition nullptr : ptr := None.

(** A pointer in a condition: [if (event_buffer)]. *)
Definition non_null (p : ptr) : bool :=
  match p with Some _ => true | None => false end.

(** Reading and writing the object an [EventBuffer*] points to. *)
Definition load (p : ptr) : M EventBuffer.t :=
  fun w => match p with
           | Some a => match heap_ w !! a with
                       | Some b => Some (b, w)
                       | None => None
                       end
           | None => None
           end.

Definition store (p : ptr) (b : EventBuffer.t) : M unit :=
  fun w => match p with
           | Some a => Some (tt, set_heap (<[a := b]> (heap_ w)) w)
           | None => None
           end.

(** [b->AddEntry(value)] *)
Definition AddEntry (b : ptr) (value : Z) : M unit :=
  let* buf := load b in
  store b (EventBuffer.AddEntry value buf).

(** [b->string_table()->GetStringId(value)] *)
Definition GetStringId (b : ptr) (value : string) : M Z :=
  let* buf := load b in
  let r := StringTable.GetStringId value (EventBuffer.string_table_ buf) in
  store b (EventBuffer.with_string_table (snd r) buf) >>
  ret (fst r).

(** ** wtf/platform.h *)

(** platform_aux_std_threaded_inl.h: the value of the calling thread for
    [internal::event_buffer_key]; the key is created once, before any use. *)
Definition PlatformGetThreadLocalEventBuffer : M ptr :=
  fun w => Some (event_buffer_key w, w).

(** Modelled from the spec: [PlatformGetTimestampMicros32] is declared in
    wtf/platform.h; [now_micros() -> u32] reads the microsecond clock,
    truncated to 32 bits. *)
Definition PlatformGetTimestampMicros32 : M Z :=
  fun w => Some (to_uint32 (micros_ w (clock_reads_ w)),
                 set_clock_reads (S (clock_reads_ w)) w).

(** ** wtf/event.h *)

Module ArgTypeDef.

(** [ArgTypeDef<const char*>::Emit(EventBuffer* b, const char* value)] *)
Definition Emit_cstr (b : ptr) (value : option string) : M unit :=
  let* string_id :=
    match value with
    | Some s => GetStringId b s
    | None => ret StringTable.kEmptyStringId
    end in
  AddEntry b string_id.

(** [ArgTypeDef<uint16_t>::Emit(EventBuffer* b, uint16_t value)] *)
Definition Emit_uint16 (b : ptr) (arg : Z) : M unit :=
  let value := to_uint16 arg in
  AddEntry b value.

(** [ArgTypeDef<uint32_t>::Emit(EventBuffer* b, uint32_t value)] *)
Definition Emit_uint32 (b : ptr) (arg : Z) : M unit :=
  let value := to_uint32 arg in
  AddEntry b value.

(** [ArgTypeDef<int16_t>::Emit(EventBuffer* b, uint16_t value)]: the
    parameter is declared [uint16_t], the [int16_t] argument is converted
    to it at the call. *)
Definition Emit_int16 (b : ptr) (arg : Z) : M unit :=
  let value := to_uint16 arg in
  AddEntry b value.

(** [ArgTypeDef<int32_t>::Emit(EventBuffer* b, uint32_t value)] *)
Definition Emit_int32 (b : ptr) (arg : Z) : M unit :=
  let value := to_uint32 arg in
  AddEntry b value.

(** [ArgTypeDef<T>::Emit(event_buffer, first)], [T] being the type of
    [first]. *)
Definition Emit (b : ptr) (first : ArgValue) : M unit :=
  match first with
  | V_cstr value => Emit_cstr b value
  | V_uint16 value => Emit_uint16 b value
  | V_uint32 value => Emit_uint32 b value
  | V_int16 value => Emit_int16 b value
  | V_int32 value => Emit_int32 b value
  end.

End ArgTypeDef.

(** [EventDefinition::NextEventId]: [next_event_id_.fetch_add(1)] on an
    [atomic<int>] returns the old value and stores the sum, wrapping in two's
    complement. *)
Definition NextEventId : M Z :=
  fun w => Some (next_event_id_ w,
                 set_next_event_id (to_int32 (next_event_id_ w + 1)) w).

Module EventRegistry.

(** Modelled from the spec: [EventRegistry::AddEventDefinition] is defined
    in event.cc; [add(EventDefinition)] takes the lock, appends the
    definition to the registry's sequence and returns. *)
Definition AddEventDefinition (event_definition : EventDefinition.t)
    : M unit :=
  fun w => Some (tt, set_event_definitions
                       (event_definitions_ w ++ [event_definition]) w).

End EventRegistry.

Module StandardEvents.
Definition kScopeLeaveEventId : Z := 2.
End StandardEvents.

(** [template <bool kEnable, typename... ArgTypes> class EventIf] and its
    explicit specialisation for [kEnable == false]. *)
Module EventIf.

Record enabled : Type := Enabled { wire_id_ : Z }.
Inductive disabled : Type := Disabled.

Definition t (kEnable : bool) : Type :=
  if kEnable then enabled else disabled.

(** [EventIf(int wire_id, EventClass event_class, int flags,
            const char* name_spec)] *)
Definition ctor_wire_id (kEnable : bool) (ArgTypes : list ArgType)
    (wire_id : Z) (event_class : EventClass) (flags : Z)
    (name_spec : option string) : M (t kEnable) :=
  match kEnable return M (t kEnable) with
  | true =>
      EventRegistry.AddEventDefinition
        (EventDefinition.Create ArgTypes wire_id event_class flags
                                name_spec) >>
      ret (Enabled wire_id)
  | false => ret Disabled
  end.

(** [EventIf(EventClass event_class, int flags, const char* name_spec)] *)
Definition ctor_class (kEnable : bool) (ArgTypes : list ArgType)
    (event_class : EventClass) (flags : Z) (name_spec : option string)
    : M (t kEnable) :=
  match kEnable return M (t kEnable) with
  | true =>
      let* wire_id := NextEventId in
      ctor_wire_id true ArgTypes wire_id event_class flags name_spec
  | false => ret Disabled
  end.

(** [explicit EventIf(const char* name_spec)] *)
Definition ctor (kEnable : bool) (ArgTypes : list ArgType)
    (name_spec : option string) : M (t kEnable) :=
  match kEnable return M (t kEnable) with
  | true => ctor_class true ArgTypes kInstance 0 name_spec
  | false => ret Disabled
  end.

(** The two overloads of [EmitArguments]. *)
Fixpoint EmitArguments (event_buffer : ptr) (args : list ArgValue)
    : M unit :=
  match args with
  | [] => ret tt
  | first :: rest =>
      ArgTypeDef.Emit event_buffer first >>
      EmitArguments event_buffer rest
  end.

Definition InvokeSpecific (kEnable : bool) (this : t kEnable)
    (event_buffer : ptr) (args : list ArgValue) : M unit :=
  match kEnable return t kEnable -> M unit with
  | true => fun this =>
      AddEntry event_buffer (wire_id_ this) >>
      let* now := PlatformGetTimestampMicros32 in
      AddEntry event_buffer now >>
      EmitArguments event_buffer args
  | false => fun _ => ret tt
  end this.

Definition Invoke (kEnable : bool) (this : t kEnable)
    (args : list ArgValue) : M unit :=
  match kEnable return t kEnable -> M unit with
  | true => fun this =>
      let* event_buffer := PlatformGetThreadLocalEventBuffer in
      if non_null event_buffer then InvokeSpecific true this event_buffer args
      else ret tt
  | false => fun _ => ret tt
  end this.

End EventIf.

(** [template <bool kEnable, typename... ArgTypes> class ScopedEventIf]
    derives privately from [EventIf<kEnable, ArgTypes...>].  Its members name
    the base as [Event<ArgTypes...>]; that alias has to denote the base class
    for them to compile, so in the enabled class it is
    [EventIf<true, ArgTypes...>]. *)
Module ScopedEventIf.

Record enabled : Type := Enabled { base : EventIf.enabled }.
Inductive disabled : Type := Disabled.

Definition t (kEnable : bool) : Type :=
  if kEnable then enabled else disabled.

(** [explicit ScopedEventIf(const char* name_spec)] *)
Definition ctor (kEnable : bool) (ArgTypes : list ArgType)
    (name_spec : option string) : M (t kEnable) :=
  match kEnable return M (t kEnable) with
  | true =>
      let* b := EventIf.ctor_class true ArgTypes kScoped 0 name_spec in
      ret (Enabled b)
  | false => ret Disabled
  end.

Definition EnterSpecific (kEnable : bool) (this : t kEnable)
    (event_buffer : ptr) (args : list ArgValue) : M unit :=
  match kEnable return t kEnable -> M unit with
  | true => fun this =>
      EventIf.InvokeSpecific true (base this) event_buffer args
  | false => fun _ => ret tt
  end this.

Definition LeaveSpecific (kEnable : bool) (this : t kEnable)
    (event_buffer : ptr) : M unit :=
  match kEnable return t kEnable -> M unit with
  | true => fun _ =>
      AddEntry event_buffer StandardEvents.kScopeLeaveEventId >>
      let* now := PlatformGetTimestampMicros32 in
      AddEntry event_buffer now
  | false => fun _ => ret tt
  end this.

Definition Enter (kEnable : bool) (this : t kEnable)
    (args : list ArgValue) : M unit :=
  match kEnable return t kEnable -> M unit with
  | true => fun this =>
      let* event_buffer := PlatformGetThreadLocalEventBuffer in
      if non_null event_buffer then EnterSpecific true this event_buffer args
      else ret tt
  | false => fun _ => ret tt
  end this.

Definition Leave (kEnable : bool) (this : t kEnable) : M unit :=
  match kEnable return t kEnable -> M unit with
  | true => fun this =>
      let* event_buffer := PlatformGetThreadLocalEventBuffer in
      if non_null event_buffer then LeaveSpecific true this event_buffer
      else ret tt
  | false => fun _ => ret tt
  end this.

End ScopedEventIf.

(** [template <bool kEnable, typename... ArgTypes> class AutoScopeIf]: the
    guard holds a reference to its event, which nothing mutates, and the
    pointer [event_buffer_].  A member function that assigns a field returns
    the object as it is afterwards. *)
Module AutoScopeIf.

Record enabled : Type := Enabled {
  event_ : ScopedEventIf.enabled;
  event_buffer_ : ptr
}.
Inductive disabled : Type := Disabled.

Definition t (kEnable : bool) : Type :=
  if kEnable then enabled else disabled.

(** [explicit AutoScopeIf(EventType& event)] *)
Definition ctor (kEnable : bool) (event : ScopedEventIf.t kEnable)
    : M (t kEnable) :=
  match kEnable return ScopedEventIf.t kEnable -> M (t kEnable) with
  | true => fun event =>
      ret {| event_ := event; event_buffer_ := nullptr |}
  | false => fun _ => ret Disabled
  end event.

Definition Enter (kEnable : bool) (this : t kEnable)
    (args : list ArgValue) : M (t kEnable) :=
  match kEnable return t kEnable -> M (t kEnable) with
  | true => fun this =>
      let* event_buffer := PlatformGetThreadLocalEventBuffer in
      let this := {| event_ := event_ this;
                     event_buffer_ := event_buffer |} in
      (if non_null (event_buffer_ this)
       then ScopedEventIf.EnterSpecific true (event_ this)
              (event_buffer_ this) args
       else ret tt) >>
      ret this
  | false => fun this => ret this
  end this.

(** [~AutoScopeIf()]; the disabled class has the implicit destructor. *)
Definition dtor (kEnable : bool) (this : t kEnable) : M unit :=
  match kEnable return t kEnable -> M unit with
  | true => fun this =>
      if non_null (event_buffer_ this)
      then ScopedEventIf.LeaveSpecific true (event_ this)
             (event_buffer_ this)
      else ret tt
  | false => fun _ => ret tt
  end this.

End AutoScopeIf.

(** The usage of a scope guard, as in macros_test.cc ([AutoScope<> s1{ev2};
    s1.Enter();]): construct, then [Enter]. *)
Definition declare_scope (kEnable : bool) (event : ScopedEventIf.t kEnable)
    (args : list ArgValue) : M (AutoScopeIf.t kEnable) :=
  let* s := AutoScopeIf.ctor kEnable event in
  AutoScopeIf.Enter kEnable s args.

(** ** The wire encoding of arguments

    What one argument contributes to the entries of a buffer whose string
    table is [st], and the string table afterwards: the rule that
    [ArgTypeDef<T>::Emit] implements, see [Emit_run]. *)
Definition wire_encoding (st : StringTable.t) (v : ArgValue)
    : list Z * StringTable.t :=
  match v with
  | V_cstr None => ([StringTable.kEmptyStringId], st)
  | V_cstr (Some s) =>
      let r := StringTable.GetStringId s st in ([to_uint32 (fst r)], snd r)
  | V_uint16 x => ([to_uint16 x], st)
  | V_uint32 x => ([to_uint32 x], st)
  | V_int16 x => ([to_uint16 x], st)
  | V_int32 x => ([to_uint32 x], st)
  end.

Fixpoint wire_encoding_list (st : StringTable.t) (args : list ArgValue)
    : list Z * StringTable.t :=
  match args with
  | [] => ([], st)
  | first :: rest =>
      let r := wire_encoding st first in
      let rs := wire_encoding_list (snd r) rest in
      (fst r ++ fst rs, snd rs)
  end.

(** The buffer at [a] replaced by [b]. *)
Definition update_buffer (a : addr) (b : EventBuffer.t) (w : World) : World :=
  set_heap (<[a := b]> (heap_ w)) w.

(** [es] appended to the entries of [b], with string table [st]. *)
Definition appended (b : EventBuffer.t) (es : list Z) (st : StringTable.t)
    : EventBuffer.t :=
  {| EventBuffer.entries_ := EventBuffer.entries_ b ++ es;
     EventBuffer.string_table_ := st;
     EventBuffer.overflow_ := EventBuffer.overflow_ b;
     EventBuffer.soft_cap_ := EventBuffer.soft_cap_ b |}.

(** The clock read once more. *)
Definition tick (w : World) : World :=
  set_clock_reads (S (clock_reads_ w)) w.

(** The timestamp the next reading of the clock gives. *)
Definition timestamp (w : World) : Z := to_uint32 (micros_ w (clock_reads_ w)).

(** The record an emission appends: wire-id, timestamp, arguments. *)
Definition record (wire_id : Z) (w : World) (arg_entries : list Z) : list Z :=
  [to_uint32 wire_id] ++ [timestamp w] ++ arg_entries.

(** The entry that holds the sign extension of [v] to 32 bits. *)
Definition sign_extended_entry (v : Z) : Z := to_uint32 v.

(** The property that an [int16_t] argument is emitted, into a buffer with
    room for it, as the one entry that holds its sign extension. *)
Definition int16_sign_extended : Prop :=
  forall (a : addr) (b : EventBuffer.t) (v : Z) (w : World),
    heap_ w !! a = Some b -> EventBuffer.has_room 1 b = true ->
    is_int16 v ->
    ArgTypeDef.Emit (Some a) (V_int16 v) w
    = Some (tt, update_buffer a
                  (appended b [sign_extended_entry v]
                     (EventBuffer.string_table_ b)) w).

(** ** Declarations of a process *)

(** A declaration of an event at a call site: which class, which of its
    constructors, and the arguments. *)
Inductive declaration : Type :=
| Decl_Event (kEnable : bool) (ArgTypes : list ArgType)
    (name_spec : option string)
| Decl_Event_wire_id (kEnable : bool) (ArgTypes : list ArgType) (wire_id : Z)
    (event_class : EventClass) (flags : Z) (name_spec : option string)
| Decl_Event_class (kEnable : bool) (ArgTypes : list ArgType)
    (event_class : EventClass) (flags : Z) (name_spec : option string)
| Decl_ScopedEvent (kEnable : bool) (ArgTypes : list ArgType)
    (name_spec : option string).

Definition declare (d : declaration) : M unit :=
  match d with
  | Decl_Event kEnable ArgTypes name_spec =>
      EventIf.ctor kEnable ArgTypes name_spec >> ret tt
  | Decl_Event_wire_id kEnable ArgTypes wire_id event_class flags name_spec =>
      EventIf.ctor_wire_id kEnable ArgTypes wire_id event_class flags
        name_spec >> ret tt
  | Decl_Event_class kEnable ArgTypes event_class flags name_spec =>
      EventIf.ctor_class kEnable ArgTypes event_class flags name_spec >> ret tt
  | Decl_ScopedEvent kEnable ArgTypes name_spec =>
      ScopedEventIf.ctor kEnable ArgTypes name_spec >> ret tt
  end.

(** The declarations of a process, in the order they are reached. *)
Fixpoint declare_all (ds : list declaration) : M unit :=
  match ds with
  | [] => ret tt
  | d :: rest => declare d >> declare_all rest
  end.

(** [n] calls of [NextEventId] in a row, and what they return. *)
Fixpoint draw (n : nat) : M (list Z) :=
  match n with
  | O => ret []
  | S m =>
      let* id := NextEventId in
      let* ids := draw m in
      ret (id :: ids)
  end.

(** The values a counter that stands at [c] hands out next. *)
Fixpoint ids_from (c : Z) (n : nat) : list Z :=
  match n with
  | O => []
  | S m => c :: ids_from (to_int32 (c + 1)) m
  end.

(** The property that the wire-ids in the registry are pairwise distinct,
    whatever is declared. *)
Definition wire_ids_unique : Prop :=
  forall (ds : list declaration) (w w' : World),
    event_definitions_ w = [] ->
    declare_all ds w = Some (tt, w') ->
    NoDup (EventDefinition.wire_id <$> event_definitions_ w').

(** ** Two process states to run the code on *)

(** A thread with the empty buffer at address 1 bound to it. *)
Definition world_bound : World :=
  {| next_event_id_ := 100;
     event_definitions_ := [];
     heap_ := {[ 1%positive := EventBuffer.empty ]};
     event_buffer_key := Some 1%positive;
     micros_ := fun n => 1000 + Z.of_nat n;
     clock_reads_ := 0 |}.

(** The same process seen from a thread that has no buffer bound. *)
Definition world_unbound : World := set_event_buffer_key None world_bound.

(** ** Reading entries back *)

Definition is_uint16 (x : Z) : Prop := 0 <= x < 2 ^ 16.

(** The low 16 bits of an entry, read as an [int16_t]. *)
Definition to_int16 (x : Z) : Z := (x + 2 ^ 15) mod 2 ^ 16 - 2 ^ 15.

(** ** The block of a scope guard

    [{ AutoScope<> s{event}; s.Enter(args); body }] as in macros_test.cc:
    the guard is destroyed where the block ends. *)
Definition scope_block (kEnable : bool) (event : ScopedEventIf.t kEnable)
    (args : list ArgValue) (body : M unit) : M unit :=
  let* s := declare_scope kEnable event args in
  body >>
  AutoScopeIf.dtor kEnable s.

(** ** macros_test.cc: the fixture *)

(** Modelled from the spec: [EventBuffer::empty] is defined in wtf/buffer.h;
    [empty()] tells whether the buffer holds no entry. *)
Definition EventBuffer_empty (b : ptr) : M bool :=
  let* buf := load b in
  ret (match EventBuffer.entries_ buf with [] => true | _ :: _ => false end).

(** [MacrosTest::EventsHaveBeenLogged] *)
Definition EventsHaveBeenLogged : M bool :=
  let* event_buffer := PlatformGetThreadLocalEventBuffer in
  if negb (non_null event_buffer) then ret false
  else
    let* e := EventBuffer_empty event_buffer in
    ret (negb e).

(** ** What a declaration registers *)

Definition registers (d : declaration) : bool :=
  match d with
  | Decl_Event kEnable _ _ => kEnable
  | Decl_Event_wire_id kEnable _ _ _ _ _ => kEnable
  | Decl_Event_class kEnable _ _ _ _ => kEnable
  | Decl_ScopedEvent kEnable _ _ => kEnable
  end.

Definition declared_class (d : declaration) : EventClass :=
  match d with
  | Decl_Event _ _ _ => kInstance
  | Decl_Event_wire_id _ _ _ event_class _ _ => event_class
  | Decl_Event_class _ _ event_class _ _ => event_class
  | Decl_ScopedEvent _ _ _ => kScoped
  end.

Definition declared_name (d : declaration) : option string :=
  match d with
  | Decl_Event _ _ name_spec => name_spec
  | Decl_Event_wire_id _ _ _ _ _ name_spec => name_spec
  | Decl_Event_class _ _ _ _ name_spec => name_spec
  | Decl_ScopedEvent _ _ name_spec => name_spec
  end.

(** The declaration draws its wire-id from [NextEventId]: it is of an
    enabled class and its constructor is not the one that is given the
    wire-id. *)
Definition draws (d : declaration) : bool :=
  match d with
  | Decl_Event kEnable _ _ => kEnable
  | Decl_Event_wire_id _ _ _ _ _ _ => false
  | Decl_Event_class kEnable _ _ _ _ => kEnable
  | Decl_ScopedEvent kEnable _ _ => kEnable
  end.

(** Of the definitions [new] that the declarations [ds] have registered,
    one for each declaration of an enabled class and in their order, those
    whose declaration has drawn the wire-id from [NextEventId]. *)
Definition auto_registered (new : list EventDefinition.t)
    (ds : list declaration) : list EventDefinition.t :=
  fst <$> List.filter (fun p => draws p.2)
            (zip new (List.filter registers ds)).

Definition declared_types (d : declaration) : list ArgType :=
  match d with
  | Decl_Event _ ArgTypes _ => ArgTypes
  | Decl_Event_wire_id _ ArgTypes _ _ _ _ => ArgTypes
  | Decl_Event_class _ ArgTypes _ _ _ => ArgTypes
  | Decl_ScopedEvent _ ArgTypes _ => ArgTypes
  end.

(** ** The argument zipper of [EventDefinition]

    [ZipArgument] and the names [ArgTypeDef<T>::name] are defined in
    event.cc; the zipper is parametric in them.  The state is the output
    string and the cursor [*arg_names] into the argument names, which
    [ZipArgument] moves. *)
Section ArgumentZipper.

Variable ZipState : Type.
Variable ArgTypeDef_name : ArgType -> string.
Variable ZipArgument : nat -> string -> ZipState -> ZipState.

(** [ZipArgumentsHelper<k, kSize>::Zip<ArgTypes...>]: the specialisation for
    [k == kSize] asserts that no type is left, the primary template peels
    [FirstType] off.  An instantiation that does not compile is [None]. *)
Fixpoint Zip (k kSize : nat) (ArgTypes : list ArgType) (st : ZipState)
    : option ZipState :=
  if (k =? kSize)%nat then
    match ArgTypes with
    | [] => Some st
    | _ :: _ => None
    end
  else
    match ArgTypes with
    | FirstType :: rest =>
        let arg_type_name := ArgTypeDef_name FirstType in
        Zip (S k) kSize rest (ZipArgument k arg_type_name st)
    | [] => None
    end.

(** [EventDefinition::ArgumentZipper<ArgTypes...>] *)
Definition ArgumentZipper (ArgTypes : list ArgType) (st : ZipState)
    : option ZipState :=
  Zip 0 (length ArgTypes) ArgTypes st.

End ArgumentZipper.

(** * Properties *)

(** ** Conversions *)

Lemma to_uint32_idem (x : Z) : to_uint32 (to_uint32 x) = to_uint32 x.
Proof. unfold to_uint32. apply Z.mod_mod. lia. Qed.

Lemma to_uint32_to_uint16 (x : Z) : to_uint32 (to_uint16 x) = to_uint16 x.
Proof.
  unfold to_uint32, to_uint16.
  assert (0 <= x mod 2 ^ 16 < 2 ^ 16) by (apply Z.mod_pos_bound; lia).
  apply Z.mod_small. lia.
Qed.

Lemma to_uint32_small (x : Z) : is_uint32 x -> to_uint32 x = x.
Proof. unfold is_uint32, to_uint32. intros H. apply Z.mod_small. lia. Qed.

Lemma to_int32_small (x : Z) : is_int32 x -> to_int32 x = x.
Proof.
  unfold is_int32, to_int32. intros H.
  rewrite Z.mod_small by lia. lia.
Qed.

Lemma to_int32_range (x : Z) : is_int32 (to_int32 x).
Proof.
  unfold is_int32, to_int32.
  assert (0 <= (x + 2 ^ 31) mod 2 ^ 32 < 2 ^ 32) by (apply Z.mod_pos_bound; lia).
  lia.
Qed.

(** ** The heap *)

Lemma update_buffer_lookup (a : addr) (b : EventBuffer.t) (w : World) :
  heap_ (update_buffer a b w) !! a = Some b.
Proof. unfold update_buffer. simpl. apply lookup_insert_eq. Qed.

Lemma update_buffer_twice (a : addr) (b1 b2 : EventBuffer.t) (w : World) :
  update_buffer a b2 (update_buffer a b1 w) = update_buffer a b2 w.
Proof. unfold update_buffer, set_heap. simpl. by rewrite insert_insert_eq. Qed.

Lemma update_buffer_tick (a : addr) (b : EventBuffer.t) (w : World) :
  update_buffer a b (tick w) = tick (update_buffer a b w).
Proof. reflexivity. Qed.

Lemma appended_appended (b : EventBuffer.t) (es1 es2 : list Z)
    (st1 st2 : StringTable.t) :
  appended (appended b es1 st1) es2 st2 = appended b (es1 ++ es2) st2.
Proof. unfold appended. simpl. by rewrite <- app_assoc. Qed.

(** ** Room in a buffer *)

Lemma has_room_spec (n : nat) (b : EventBuffer.t) :
  EventBuffer.has_room n b = true
  <-> EventBuffer.overflow_ b = false
      /\ EventBuffer.size_bytes b + 4 * Z.of_nat n
         <= EventBuffer.soft_cap_ b.
Proof.
  unfold EventBuffer.has_room.
  rewrite andb_true_iff, negb_true_iff, Z.leb_le. reflexivity.
Qed.

Lemma has_room_le (m n : nat) (b : EventBuffer.t) :
  (m <= n)%nat ->
  EventBuffer.has_room n b = true -> EventBuffer.has_room m b = true.
Proof. rewrite !has_room_spec. intros Hmn [Ho Hn]. split; [done | lia]. Qed.

Lemma has_room_appended (n : nat) (b : EventBuffer.t) (es : list Z)
    (st : StringTable.t) :
  EventBuffer.has_room (length es + n) b = true ->
  EventBuffer.has_room n (appended b es st) = true.
Proof.
  rewrite !has_room_spec. unfold EventBuffer.size_bytes. simpl.
  rewrite length_app. intros [Ho Hn]. split; [done | lia].
Qed.

Lemma AddEntry_room (value : Z) (b : EventBuffer.t) :
  EventBuffer.has_room 1 b = true ->
  EventBuffer.AddEntry value b
  = appended b [to_uint32 value] (EventBuffer.string_table_ b).
Proof.
  intros H. apply has_room_spec in H as [Ho Hn].
  unfold EventBuffer.AddEntry. rewrite Ho.
  destruct (Z.leb_spec (EventBuffer.size_bytes b + 4)
              (EventBuffer.soft_cap_ b)) as [_|Hgt]; [|lia].
  unfold appended. by rewrite Ho.
Qed.

(** What [AddEntry] does to a buffer without room: the write is dropped,
    the entries and the string table stay, and the flag is set. *)
Lemma AddEntry_dropped (value : Z) (b : EventBuffer.t) :
  EventBuffer.has_room 1 b = false ->
  EventBuffer.entries_ (EventBuffer.AddEntry value b) = EventBuffer.entries_ b
  /\ EventBuffer.string_table_ (EventBuffer.AddEntry value b)
     = EventBuffer.string_table_ b
  /\ EventBuffer.overflow_ (EventBuffer.AddEntry value b) = true.
Proof.
  unfold EventBuffer.has_room, EventBuffer.AddEntry. intros H.
  destruct (EventBuffer.overflow_ b) eqn:Ho; [done|].
  simpl in H. change (4 * Z.of_nat 1) with 4 in H. by rewrite H.
Qed.

(** The flag is sticky: no write clears it. *)
Lemma AddEntry_sticky (value : Z) (b : EventBuffer.t) :
  EventBuffer.overflow_ b = true -> EventBuffer.AddEntry value b = b.
Proof. intros H. unfold EventBuffer.AddEntry. by rewrite H. Qed.

(** ** Running the primitives on a live buffer *)

Lemma AddEntry_run (a : addr) (b : EventBuffer.t) (value : Z) (w : World) :
  heap_ w !! a = Some b ->
  EventBuffer.has_room 1 b = true ->
  AddEntry (Some a) value w
  = Some (tt, update_buffer a
                (appended b [to_uint32 value] (EventBuffer.string_table_ b)) w).
Proof.
  intros H Hroom. unfold AddEntry, bind, load, store. rewrite H.
  by rewrite (AddEntry_room value b Hroom).
Qed.

Lemma GetStringId_run (a : addr) (b : EventBuffer.t) (s : string) (w : World) :
  heap_ w !! a = Some b ->
  GetStringId (Some a) s w
  = let r := StringTable.GetStringId s (EventBuffer.string_table_ b) in
    Some (fst r, update_buffer a (appended b [] (snd r)) w).
Proof.
  intros H. unfold GetStringId, bind, load, store, ret. rewrite H. simpl.
  unfold update_buffer, appended, EventBuffer.with_string_table.
  by rewrite app_nil_r.
Qed.

(** [ArgTypeDef<T>::Emit] appends the wire encoding of its argument. *)
Lemma Emit_run (a : addr) (b : EventBuffer.t) (v : ArgValue) (w : World) :
  heap_ w !! a = Some b ->
  EventBuffer.has_room 1 b = true ->
  ArgTypeDef.Emit (Some a) v w
  = let r := wire_encoding (EventBuffer.string_table_ b) v in
    Some (tt, update_buffer a (appended b (fst r) (snd r)) w).
Proof.
  intros H Hroom. destruct v as [[s|]|x|x|x|x]; simpl.
  - unfold ArgTypeDef.Emit_cstr, bind.
    rewrite (GetStringId_run a b s w H). simpl.
    rewrite (AddEntry_run a _ _ _ (update_buffer_lookup a _ w)
               (has_room_appended 1 b [] _ Hroom)).
    by rewrite update_buffer_twice, appended_appended.
  - unfold ArgTypeDef.Emit_cstr, bind, ret.
    by rewrite (AddEntry_run a b _ w H Hroom).
  - unfold ArgTypeDef.Emit_uint16.
    by rewrite (AddEntry_run a b _ w H Hroom), to_uint32_to_uint16.
  - unfold ArgTypeDef.Emit_uint32.
    by rewrite (AddEntry_run a b _ w H Hroom), to_uint32_idem.
  - unfold ArgTypeDef.Emit_int16.
    by rewrite (AddEntry_run a b _ w H Hroom), to_uint32_to_uint16.
  - unfold ArgTypeDef.Emit_int32.
    by rewrite (AddEntry_run a b _ w H Hroom), to_uint32_idem.
Qed.

Lemma wire_encoding_length (st : StringTable.t) (v : ArgValue) :
  length (fst (wire_encoding st v)) = 1%nat.
Proof. by destruct v as [[s|]|x|x|x|x]. Qed.

Lemma wire_encoding_list_length (args : list ArgValue) :
  forall st : StringTable.t,
  length (fst (wire_encoding_list st args)) = length args.
Proof.
  induction args as [|first rest IH]; intros st; simpl; [done|].
  by rewrite length_app, wire_encoding_length, IH.
Qed.

Lemma EmitArguments_run (a : addr) (args : list ArgValue) :
  forall (b : EventBuffer.t) (w : World),
  heap_ w !! a = Some b ->
  EventBuffer.has_room (length args) b = true ->
  EventIf.EmitArguments (Some a) args w
  = let r := wire_encoding_list (EventBuffer.string_table_ b) args in
    Some (tt, update_buffer a (appended b (fst r) (snd r)) w).
Proof.
  induction args as [|first rest IH]; intros b w H Hroom; simpl.
  - unfold ret, update_buffer, appended. rewrite app_nil_r.
    destruct b as [es st o c]. simpl. rewrite insert_id by done.
    by destruct w.
  - unfold bind.
    rewrite (Emit_run a b first w H
               (has_room_le 1 (S (length rest)) b ltac:(lia) Hroom)). simpl.
    assert (EventBuffer.has_room (length rest)
              (appended b
                 (fst (wire_encoding (EventBuffer.string_table_ b) first))
                 (snd (wire_encoding (EventBuffer.string_table_ b) first)))
            = true) as Hrest.
    { apply has_room_appended. by rewrite wire_encoding_length. }
    rewrite (IH _ _ (update_buffer_lookup a _ w) Hrest). simpl.
    by rewrite update_buffer_twice, appended_appended.
Qed.

Lemma wire_encoding_uint32 (st : StringTable.t) (v : ArgValue) :
  Forall is_uint32 (fst (wire_encoding st v)).
Proof.
  assert (forall x, is_uint32 (to_uint32 x)) as H32.
  { intros x. unfold is_uint32, to_uint32. apply Z.mod_pos_bound. lia. }
  assert (forall x, is_uint32 (to_uint16 x)) as H16.
  { intros x. rewrite <- to_uint32_to_uint16. apply H32. }
  destruct v as [[s|]|x|x|x|x]; simpl;
    (apply Forall_cons_2; [|apply Forall_nil_2]); auto.
  unfold is_uint32, StringTable.kEmptyStringId. lia.
Qed.

Lemma wire_encoding_list_uint32 (args : list ArgValue) :
  forall st : StringTable.t,
  Forall is_uint32 (fst (wire_encoding_list st args)).
Proof.
  induction args as [|first rest IH]; intros st; simpl; [constructor|].
  apply Forall_app. split; [apply wire_encoding_uint32 | apply IH].
Qed.

(** ** Emission of an instance event *)

Lemma InvokeSpecific_run (this : EventIf.enabled) (a : addr)
    (b : EventBuffer.t) (args : list ArgValue) (w : World) :
  heap_ w !! a = Some b ->
  EventBuffer.has_room (2 + length args) b = true ->
  let enc := wire_encoding_list (EventBuffer.string_table_ b) args in
  EventIf.InvokeSpecific true this (Some a) args w
  = Some (tt, tick (update_buffer a
                      (appended b (record (EventIf.wire_id_ this) w (fst enc))
                         (snd enc)) w)).
Proof.
  intros H Hroom enc. unfold EventIf.InvokeSpecific, bind.
  rewrite (AddEntry_run a b _ w H
             (has_room_le 1 (2 + length args) b ltac:(lia) Hroom)).
  unfold PlatformGetTimestampMicros32. fold (tick (update_buffer a
    (appended b [to_uint32 (EventIf.wire_id_ this)]
       (EventBuffer.string_table_ b)) w)).
  rewrite <- update_buffer_tick.
  rewrite (AddEntry_run a _ _ _ (update_buffer_lookup a _ (tick w))
             (has_room_appended 1 b [_] _
                (has_room_le 2 (2 + length args) b ltac:(lia) Hroom))).
  rewrite update_buffer_twice, appended_appended. simpl.
  rewrite (EmitArguments_run a args _ _ (update_buffer_lookup a _ (tick w))
             (has_room_appended (length args) b [_; _] _ Hroom)).
  simpl. fold enc.
  rewrite update_buffer_twice, appended_appended, to_uint32_idem.
  reflexivity.
Qed.

Lemma LeaveSpecific_run (this : ScopedEventIf.enabled) (a : addr)
    (b : EventBuffer.t) (w : World) :
  heap_ w !! a = Some b ->
  EventBuffer.has_room 2 b = true ->
  ScopedEventIf.LeaveSpecific true this (Some a) w
  = Some (tt, tick (update_buffer a
                      (appended b [2; timestamp w]
                         (EventBuffer.string_table_ b)) w)).
Proof.
  intros H Hroom. unfold ScopedEventIf.LeaveSpecific, bind.
  rewrite (AddEntry_run a b _ w H (has_room_le 1 2 b ltac:(lia) Hroom)).
  unfold PlatformGetTimestampMicros32.
  fold (tick (update_buffer a
    (appended b [to_uint32 StandardEvents.kScopeLeaveEventId]
       (EventBuffer.string_table_ b)) w)).
  rewrite <- update_buffer_tick.
  rewrite (AddEntry_run a _ _ _ (update_buffer_lookup a _ (tick w))
             (has_room_appended 1 b [_] _ Hroom)).
  rewrite update_buffer_twice, appended_appended, to_uint32_idem.
  reflexivity.
Qed.

(** ** Emission into a buffer that has overflowed

    The writes are dropped: the entries stay as they are and the flag stays
    set; strings are still interned. *)

Lemma AddEntry_run_any (a : addr) (b : EventBuffer.t) (value : Z) (w : World) :
  heap_ w !! a = Some b ->
  AddEntry (Some a) value w
  = Some (tt, update_buffer a (EventBuffer.AddEntry value b) w).
Proof. intros H. unfold AddEntry, bind, load, store. by rewrite H. Qed.

Lemma Emit_overflowed (a : addr) (b : EventBuffer.t) (v : ArgValue)
    (w : World) :
  heap_ w !! a = Some b -> EventBuffer.overflow_ b = true ->
  exists b' : EventBuffer.t,
    ArgTypeDef.Emit (Some a) v w = Some (tt, update_buffer a b' w)
    /\ EventBuffer.entries_ b' = EventBuffer.entries_ b
    /\ EventBuffer.overflow_ b' = true.
Proof.
  intros H Ho. destruct v as [[s|]|x|x|x|x]; simpl;
    try (exists b; unfold ArgTypeDef.Emit_cstr, ArgTypeDef.Emit_uint16,
           ArgTypeDef.Emit_uint32, ArgTypeDef.Emit_int16,
           ArgTypeDef.Emit_int32, bind, ret;
         rewrite (AddEntry_run_any a b _ w H), (AddEntry_sticky _ b Ho);
         done).
  set (r := StringTable.GetStringId s (EventBuffer.string_table_ b)).
  exists (appended b [] (snd r)).
  unfold ArgTypeDef.Emit_cstr, bind.
  rewrite (GetStringId_run a b s w H). fold r. cbn [fst snd].
  rewrite (AddEntry_run_any a _ _ _ (update_buffer_lookup a _ w)).
  rewrite (AddEntry_sticky _ (appended b [] (snd r)) Ho).
  rewrite update_buffer_twice. simpl. by rewrite app_nil_r.
Qed.

Lemma EmitArguments_overflowed (a : addr) (args : list ArgValue) :
  forall (b : EventBuffer.t) (w : World),
  heap_ w !! a = Some b -> EventBuffer.overflow_ b = true ->
  exists b' : EventBuffer.t,
    EventIf.EmitArguments (Some a) args w = Some (tt, update_buffer a b' w)
    /\ EventBuffer.entries_ b' = EventBuffer.entries_ b
    /\ EventBuffer.overflow_ b' = true.
Proof.
  induction args as [|first rest IH]; intros b w H Ho; simpl.
  - exists b. unfold ret, update_buffer. rewrite insert_id by done.
    by destruct w.
  - destruct (Emit_overflowed a b first w H Ho) as (b1 & Hrun & He & Ho1).
    destruct (IH b1 _ (update_buffer_lookup a b1 w) Ho1)
      as (b2 & Hrun2 & He2 & Ho2).
    exists b2. unfold bind. rewrite Hrun, Hrun2, update_buffer_twice.
    split; [reflexivity|]. split; [congruence | exact Ho2].
Qed.

Lemma InvokeSpecific_overflowed (this : EventIf.enabled) (a : addr)
    (b : EventBuffer.t) (args : list ArgValue) (w : World) :
  heap_ w !! a = Some b -> EventBuffer.overflow_ b = true ->
  exists b' : EventBuffer.t,
    EventIf.InvokeSpecific true this (Some a) args w
    = Some (tt, tick (update_buffer a b' w))
    /\ EventBuffer.entries_ b' = EventBuffer.entries_ b
    /\ EventBuffer.overflow_ b' = true.
Proof.
  intros H Ho. unfold EventIf.InvokeSpecific, bind.
  rewrite (AddEntry_run_any a b _ w H), (AddEntry_sticky _ b Ho).
  unfold PlatformGetTimestampMicros32.
  fold (tick (update_buffer a b w)). rewrite <- update_buffer_tick.
  rewrite (AddEntry_run_any a b _ _ (update_buffer_lookup a b (tick w))),
    (AddEntry_sticky _ b Ho), update_buffer_twice.
  destruct (EmitArguments_overflowed a args b _
              (update_buffer_lookup a b (tick w)) Ho)
    as (b' & Hrun & He & Ho').
  exists b'. rewrite Hrun, update_buffer_twice, update_buffer_tick.
  done.
Qed.

(** C1.  One emission [InvokeSpecific] of an enabled instance event into a
    live buffer that has not overflowed and has room for the record
    appends, in this order, one entry with the wire-id of the
    event, one entry with the timestamp truncated to 32 bits, and the wire
    encodings of the arguments in the order of the argument list, which is
    one entry for each argument; every appended entry is a 32-bit value, and
    the rest of the process state is as before, but for the clock having
    been read once. *)
Theorem InvokeSpecific_record (this : EventIf.enabled) (a : addr)
    (b : EventBuffer.t) (args : list ArgValue) (w : World) :
  heap_ w !! a = Some b ->
  EventBuffer.has_room (2 + length args) b = true ->
  let enc := wire_encoding_list (EventBuffer.string_table_ b) args in
  EventIf.InvokeSpecific true this (Some a) args w
  = Some (tt, tick (update_buffer a
                      (appended b
                         ([to_uint32 (EventIf.wire_id_ this)] ++ [timestamp w]
                          ++ fst enc)
                         (snd enc)) w))
  /\ length (fst enc) = length args
  /\ Forall is_uint32
       ([to_uint32 (EventIf.wire_id_ this)] ++ [timestamp w] ++ fst enc).
Proof.
  intros H Hroom enc. split; [|split].
  - apply (InvokeSpecific_run this a b args w H Hroom).
  - apply wire_encoding_list_length.
  - repeat apply Forall_cons_2.
    + unfold is_uint32, to_uint32. apply Z.mod_pos_bound. lia.
    + unfold timestamp, is_uint32, to_uint32. apply Z.mod_pos_bound. lia.
    + apply wire_encoding_list_uint32.
Qed.

Lemma InvokeSpecific_record_witness :
  let enc := wire_encoding_list StringTable.empty [V_int32 42] in
  EventIf.InvokeSpecific true (EventIf.Enabled 100) (Some 1%positive)
    [V_int32 42] world_bound
  = Some (tt, tick (update_buffer 1%positive
                      (appended EventBuffer.empty
                         ([to_uint32 100] ++ [timestamp world_bound]
                          ++ fst enc)
                         (snd enc)) world_bound))
  /\ length (fst enc) = 1%nat
  /\ Forall is_uint32 ([to_uint32 100] ++ [timestamp world_bound] ++ fst enc).
Proof.
  apply (InvokeSpecific_record (EventIf.Enabled 100) 1%positive
           EventBuffer.empty [V_int32 42] world_bound); reflexivity.
Defined.

(** The entries of the record in scenario B of the specification. *)
Example InvokeSpecific_scenario_B :
  (fun r => EventBuffer.entries_ <$> (heap_ r.2 !! 1%positive))
    <$> EventIf.InvokeSpecific true (EventIf.Enabled 100) (Some 1%positive)
          [V_int32 42] world_bound
  = Some (Some [100; 1000; 42]).
Proof. vm_compute. reflexivity. Qed.

(** ** Leaving a scope *)

(** C2.  Whatever the wire-id of an enabled scoped event, [LeaveSpecific]
    into a live buffer that has not overflowed and has room for two entries
    appends exactly two entries, the scope-leave wire-id 2
    and the timestamp, and changes nothing else but the count of clock
    readings; [Leave] does the same to the buffer bound to the thread. *)
Theorem LeaveSpecific_record (this : ScopedEventIf.enabled) (a : addr)
    (b : EventBuffer.t) (w : World) :
  heap_ w !! a = Some b ->
  EventBuffer.has_room 2 b = true ->
  let w' := tick (update_buffer a
                    (appended b [2; timestamp w]
                       (EventBuffer.string_table_ b)) w) in
  ScopedEventIf.LeaveSpecific true this (Some a) w = Some (tt, w')
  /\ (event_buffer_key w = Some a ->
      ScopedEventIf.Leave true this w = Some (tt, w')).
Proof.
  intros H Hroom w'. pose proof (LeaveSpecific_run this a b w H Hroom) as HL.
  split; [exact HL|].
  intros Hkey. unfold ScopedEventIf.Leave, bind,
    PlatformGetThreadLocalEventBuffer.
  rewrite Hkey. exact HL.
Qed.

Lemma LeaveSpecific_record_witness :
  let w' := tick (update_buffer 1%positive
                    (appended EventBuffer.empty [2; timestamp world_bound]
                       StringTable.empty) world_bound) in
  ScopedEventIf.LeaveSpecific true
    (ScopedEventIf.Enabled (EventIf.Enabled 123)) (Some 1%positive) world_bound
  = Some (tt, w')
  /\ ScopedEventIf.Leave true
       (ScopedEventIf.Enabled (EventIf.Enabled 123)) world_bound
     = Some (tt, w').
Proof.
  destruct (LeaveSpecific_record (ScopedEventIf.Enabled (EventIf.Enabled 123))
              1%positive EventBuffer.empty world_bound eq_refl eq_refl)
    as [H1 H2].
  split; [exact H1 | exact (H2 eq_refl)].
Defined.

(** ** A thread without a buffer *)

(** C3.  When no buffer is bound to the calling thread, [Invoke] of an
    enabled event and [Enter] and [Leave] of an enabled scoped event leave
    the whole process state as it is, whatever the arguments: no entry is
    added to any buffer, and the clock is not read. *)
Theorem unbound_thread_no_op (ev : EventIf.enabled)
    (sc : ScopedEventIf.enabled) (args : list ArgValue) (w : World) :
  event_buffer_key w = None ->
  EventIf.Invoke true ev args w = Some (tt, w)
  /\ ScopedEventIf.Enter true sc args w = Some (tt, w)
  /\ ScopedEventIf.Leave true sc w = Some (tt, w).
Proof.
  intros H.
  unfold EventIf.Invoke, ScopedEventIf.Enter, ScopedEventIf.Leave, bind,
    PlatformGetThreadLocalEventBuffer.
  rewrite H. simpl. done.
Qed.

Lemma unbound_thread_no_op_witness :
  EventIf.Invoke true (EventIf.Enabled 100) [V_int32 42] world_unbound
  = Some (tt, world_unbound)
  /\ ScopedEventIf.Enter true (ScopedEventIf.Enabled (EventIf.Enabled 101))
       [V_int32 42] world_unbound
     = Some (tt, world_unbound)
  /\ ScopedEventIf.Leave true (ScopedEventIf.Enabled (EventIf.Enabled 101))
       world_unbound
     = Some (tt, world_unbound).
Proof.
  apply (unbound_thread_no_op (EventIf.Enabled 100)
           (ScopedEventIf.Enabled (EventIf.Enabled 101)) [V_int32 42]
           world_unbound).
  reflexivity.
Defined.

(** ** Scope guards *)

(** The constructor by itself captures nothing and touches nothing: the
    buffer is captured by [Enter], the second step of the declaration. *)
Lemma AutoScopeIf_ctor_alone (event : ScopedEventIf.enabled) (w : World) :
  AutoScopeIf.ctor true event w
  = Some ({| AutoScopeIf.event_ := event;
             AutoScopeIf.event_buffer_ := nullptr |}, w).
Proof. reflexivity. Qed.

(** C4.  An enabled scope guard, constructed in the two steps of its
    declaration (the constructor, then [Enter]): when a live buffer is bound
    to the thread (one that has not overflowed and has room for the
    records), the guard holds that buffer and the enter record has been
    emitted into it, exactly as [EnterSpecific] does; destroying the guard,
    in whatever state the process then is and whatever is bound to the thread
    by then, emits the leave record into the buffer it holds.  When no
    buffer is bound, the guard holds none, nothing has been emitted, and
    destroying it emits nothing either, whatever has been bound since. *)
Theorem AutoScope_guard (event : ScopedEventIf.enabled)
    (args : list ArgValue) (w : World) :
  (forall (a : addr) (b : EventBuffer.t),
     event_buffer_key w = Some a -> heap_ w !! a = Some b ->
     EventBuffer.has_room (2 + length args) b = true ->
     let enc := wire_encoding_list (EventBuffer.string_table_ b) args in
     let w1 := tick (update_buffer a
                       (appended b
                          (record (EventIf.wire_id_ (ScopedEventIf.base event))
                             w (fst enc))
                          (snd enc)) w) in
     exists s : AutoScopeIf.enabled,
       declare_scope true event args w = Some (s, w1)
       /\ AutoScopeIf.event_ s = event
       /\ AutoScopeIf.event_buffer_ s = Some a
       /\ ScopedEventIf.EnterSpecific true event (Some a) args w
          = Some (tt, w1)
       /\ (forall w2 : World,
             AutoScopeIf.dtor true s w2
             = ScopedEventIf.LeaveSpecific true event (Some a) w2)
       /\ (forall (w2 : World) (b2 : EventBuffer.t),
             heap_ w2 !! a = Some b2 ->
             EventBuffer.has_room 2 b2 = true ->
             AutoScopeIf.dtor true s w2
             = Some (tt, tick (update_buffer a
                                 (appended b2 [2; timestamp w2]
                                    (EventBuffer.string_table_ b2)) w2))))
  /\ (event_buffer_key w = None ->
      exists s : AutoScopeIf.enabled,
        declare_scope true event args w = Some (s, w)
        /\ AutoScopeIf.event_buffer_ s = nullptr
        /\ forall w2 : World, AutoScopeIf.dtor true s w2 = Some (tt, w2)).
Proof.
  split.
  - intros a b Hkey Hb Hroom enc w1.
    pose proof (InvokeSpecific_run (ScopedEventIf.base event) a b args w Hb
                  Hroom) as Hrun.
    exists {| AutoScopeIf.event_ := event;
              AutoScopeIf.event_buffer_ := Some a |}.
    split; [|split; [reflexivity|split; [reflexivity|split; [|split]]]].
    + unfold declare_scope, bind, AutoScopeIf.ctor, AutoScopeIf.Enter, bind,
        PlatformGetThreadLocalEventBuffer, ret.
      rewrite Hkey.
      cbn [non_null AutoScopeIf.event_buffer_ AutoScopeIf.event_].
      unfold ScopedEventIf.EnterSpecific. rewrite Hrun. reflexivity.
    + unfold ScopedEventIf.EnterSpecific. exact Hrun.
    + intros w2. reflexivity.
    + intros w2 b2 Hb2 Hroom2.
      apply (LeaveSpecific_run event a b2 w2 Hb2 Hroom2).
  - intros Hkey.
    exists {| AutoScopeIf.event_ := event;
              AutoScopeIf.event_buffer_ := nullptr |}.
    split; [|split; [reflexivity|intros w2; reflexivity]].
    unfold declare_scope, bind, AutoScopeIf.ctor, AutoScopeIf.Enter, bind,
      PlatformGetThreadLocalEventBuffer, ret.
    rewrite Hkey. reflexivity.
Qed.

(** ** Enter is the emission of an instance event *)

(** C8.  [EnterSpecific] of an enabled scoped event does to every buffer and
    process state, for every argument list, what [InvokeSpecific] of an
    instance event with the same wire-id does: the same entries are appended
    (the entries are those of [InvokeSpecific_record]). *)
Theorem EnterSpecific_is_InvokeSpecific (this : ScopedEventIf.enabled)
    (ev : EventIf.enabled) (event_buffer : ptr) (args : list ArgValue)
    (w : World) :
  EventIf.wire_id_ ev = EventIf.wire_id_ (ScopedEventIf.base this) ->
  ScopedEventIf.EnterSpecific true this event_buffer args w
  = EventIf.InvokeSpecific true ev event_buffer args w.
Proof.
  intros H. destruct this as [[id]], ev as [id']. simpl in H. subst id'.
  reflexivity.
Qed.

Lemma EnterSpecific_is_InvokeSpecific_witness :
  ScopedEventIf.EnterSpecific true
    (ScopedEventIf.Enabled (EventIf.Enabled 101)) (Some 1%positive)
    [V_int32 1] world_bound
  = EventIf.InvokeSpecific true (EventIf.Enabled 101) (Some 1%positive)
      [V_int32 1] world_bound.
Proof.
  apply (EnterSpecific_is_InvokeSpecific
           (ScopedEventIf.Enabled (EventIf.Enabled 101)) (EventIf.Enabled 101)
           (Some 1%positive) [V_int32 1] world_bound).
  reflexivity.
Defined.

(** ** String arguments *)

(** C9.  Emitting a [const char*] argument into a live buffer that has not
    overflowed and has room for an entry appends one entry.  For a pointer to a string it is the id the string table of the
    buffer gives the string, as a 32-bit value (the id itself when it fits 32
    bits), and the table is the one [GetStringId] leaves; for the null
    pointer it is the empty-string id 0, and the string table is as before. *)
Theorem Emit_cstr_entry (a : addr) (b : EventBuffer.t) (w : World) :
  heap_ w !! a = Some b ->
  EventBuffer.has_room 1 b = true ->
  (forall s : string,
     let r := StringTable.GetStringId s (EventBuffer.string_table_ b) in
     ArgTypeDef.Emit (Some a) (V_cstr (Some s)) w
     = Some (tt, update_buffer a (appended b [to_uint32 (fst r)] (snd r)) w)
     /\ (is_uint32 (fst r) -> to_uint32 (fst r) = fst r))
  /\ ArgTypeDef.Emit (Some a) (V_cstr None) w
     = Some (tt, update_buffer a
                   (appended b [0] (EventBuffer.string_table_ b)) w).
Proof.
  intros H Hroom. split.
  - intros s r. split.
    + apply (Emit_run a b (V_cstr (Some s)) w H Hroom).
    + apply to_uint32_small.
  - apply (Emit_run a b (V_cstr None) w H Hroom).
Qed.

(** ** The disabled classes *)

(** C6.  In the disabled specialisations every operation of [EventIf],
    [ScopedEventIf] and [AutoScopeIf] (the constructors, [InvokeSpecific],
    [Invoke], [EnterSpecific], [LeaveSpecific], [Enter], [Leave], the guard's
    [Enter] and destruction) returns with the process state unchanged, in
    every state and for every buffer pointer: no buffer gets an entry. *)
Theorem disabled_no_op (ArgTypes : list ArgType) (wire_id flags : Z)
    (event_class : EventClass) (name_spec : option string)
    (ev : EventIf.t false) (sc : ScopedEventIf.t false)
    (g : AutoScopeIf.t false) (event_buffer : ptr) (args : list ArgValue)
    (w : World) :
  EventIf.ctor false ArgTypes name_spec w = Some (EventIf.Disabled, w)
  /\ EventIf.ctor_wire_id false ArgTypes wire_id event_class flags name_spec w
     = Some (EventIf.Disabled, w)
  /\ EventIf.ctor_class false ArgTypes event_class flags name_spec w
     = Some (EventIf.Disabled, w)
  /\ EventIf.InvokeSpecific false ev event_buffer args w = Some (tt, w)
  /\ EventIf.Invoke false ev args w = Some (tt, w)
  /\ ScopedEventIf.ctor false ArgTypes name_spec w
     = Some (ScopedEventIf.Disabled, w)
  /\ ScopedEventIf.EnterSpecific false sc event_buffer args w = Some (tt, w)
  /\ ScopedEventIf.LeaveSpecific false sc event_buffer w = Some (tt, w)
  /\ ScopedEventIf.Enter false sc args w = Some (tt, w)
  /\ ScopedEventIf.Leave false sc w = Some (tt, w)
  /\ AutoScopeIf.ctor false sc w = Some (AutoScopeIf.Disabled, w)
  /\ AutoScopeIf.Enter false g args w = Some (g, w)
  /\ AutoScopeIf.dtor false g w = Some (tt, w).
Proof. repeat split. Qed.

Lemma AutoScope_guard_witness :
  let event := ScopedEventIf.Enabled (EventIf.Enabled 101) in
  (exists s : AutoScopeIf.enabled,
     declare_scope true event [] world_bound
     = Some (s, tick (update_buffer 1%positive
                        (appended EventBuffer.empty
                           (record 101 world_bound []) StringTable.empty)
                        world_bound))
     /\ AutoScopeIf.event_buffer_ s = Some 1%positive
     /\ AutoScopeIf.dtor true s world_bound
        = Some (tt, tick (update_buffer 1%positive
                            (appended EventBuffer.empty
                               [2; timestamp world_bound] StringTable.empty)
                            world_bound)))
  /\ (exists s : AutoScopeIf.enabled,
        declare_scope true event [] world_unbound = Some (s, world_unbound)
        /\ AutoScopeIf.dtor true s world_bound = Some (tt, world_bound)).
Proof.
  intros event. split.
  - destruct (proj1 (AutoScope_guard event [] world_bound)
                1%positive EventBuffer.empty eq_refl eq_refl eq_refl)
      as (s & H1 & _ & H3 & _ & _ & H6).
    exists s. split; [exact H1|]. split; [exact H3|].
    exact (H6 world_bound EventBuffer.empty eq_refl eq_refl).
  - destruct (proj2 (AutoScope_guard event [] world_unbound) eq_refl)
      as (s & H1 & _ & H3).
    exists s. split; [exact H1 | exact (H3 world_bound)].
Defined.

Lemma Emit_cstr_entry_witness :
  ArgTypeDef.Emit (Some 1%positive) (V_cstr (Some "hello"%string)) world_bound
  = Some (tt, update_buffer 1%positive
                (appended EventBuffer.empty [1]
                   (snd (StringTable.GetStringId "hello"%string
                           StringTable.empty)))
                world_bound)
  /\ ArgTypeDef.Emit (Some 1%positive) (V_cstr None) world_bound
     = Some (tt, update_buffer 1%positive
                   (appended EventBuffer.empty [0] StringTable.empty)
                   world_bound).
Proof.
  destruct (Emit_cstr_entry 1%positive EventBuffer.empty world_bound eq_refl
              eq_refl) as [H1 H2].
  split; [|exact H2].
  destruct (H1 "hello"%string) as [H3 _]. exact H3.
Defined.

(** ** Signed 16-bit arguments *)

(** C5, as stated, fails: for the [int16_t] value -1 the emitter appends
    the entry 0x0000FFFF, where the sign extension of -1 to 32 bits is
    0xFFFFFFFF. *)
Lemma int16_not_sign_extended : ~ int16_sign_extended.
Proof.
  intros H.
  specialize (H 1%positive EventBuffer.empty (-1) world_bound eq_refl
                eq_refl).
  rewrite (Emit_run 1%positive EventBuffer.empty (V_int16 (-1)) world_bound
             eq_refl eq_refl) in H.
  assert (is_int16 (-1)) as Hv by (unfold is_int16; lia).
  specialize (H Hv).
  apply (f_equal (fmap (fun r : unit * World =>
                          EventBuffer.entries_ <$> heap_ r.2 !! 1%positive)))
    in H.
  vm_compute in H. discriminate H.
Qed.

Example Emit_int16_minus_one :
  ArgTypeDef.Emit (Some 1%positive) (V_int16 (-1)) world_bound
  = Some (tt, update_buffer 1%positive
                (appended EventBuffer.empty [65535] StringTable.empty)
                world_bound)
  /\ sign_extended_entry (-1) = 4294967295.
Proof.
  split; [|reflexivity].
  exact (Emit_run 1%positive EventBuffer.empty (V_int16 (-1)) world_bound
           eq_refl eq_refl).
Qed.

(** C5, amended.  For every [int16_t] value [v], emission into a live buffer
    that has not overflowed and has room for an entry appends exactly one
    entry, the low 16 bits of [v] with the upper 16 bits
    zero; it is the sign extension of [v] to 32 bits exactly when [v] is not
    negative. *)
Theorem Emit_int16_entry (a : addr) (b : EventBuffer.t) (v : Z) (w : World) :
  heap_ w !! a = Some b -> EventBuffer.has_room 1 b = true -> is_int16 v ->
  ArgTypeDef.Emit (Some a) (V_int16 v) w
  = Some (tt, update_buffer a
                (appended b [to_uint16 v] (EventBuffer.string_table_ b)) w)
  /\ 0 <= to_uint16 v < 2 ^ 16
  /\ (to_uint16 v = sign_extended_entry v <-> 0 <= v).
Proof.
  intros H Hroom Hv. split; [apply (Emit_run a b (V_int16 v) w H Hroom)|].
  split; [unfold to_uint16; apply Z.mod_pos_bound; lia|].
  unfold sign_extended_entry, to_uint16, to_uint32, is_int16 in *.
  destruct (Z_lt_le_dec v 0) as [Hneg|Hpos].
  - rewrite <- (Z.mod_unique v (2 ^ 16) (-1) (v + 2 ^ 16)) by lia.
    rewrite <- (Z.mod_unique v (2 ^ 32) (-1) (v + 2 ^ 32)) by lia.
    lia.
  - rewrite !Z.mod_small by lia. lia.
Qed.

Lemma Emit_int16_entry_witness :
  ArgTypeDef.Emit (Some 1%positive) (V_int16 (-2)) world_bound
  = Some (tt, update_buffer 1%positive
                (appended EventBuffer.empty [65534] StringTable.empty)
                world_bound)
  /\ 0 <= to_uint16 (-2) < 2 ^ 16
  /\ (to_uint16 (-2) = sign_extended_entry (-2) <-> 0 <= -2).
Proof.
  apply (Emit_int16_entry 1%positive EventBuffer.empty (-2) world_bound).
  - reflexivity.
  - reflexivity.
  - unfold is_int16. lia.
Defined.

(** ** Registration *)

(** C10.  Constructing an event or a scoped event of the disabled
    specialisation leaves the registry, and the whole process state, as it
    is; every constructor of the enabled specialisation appends exactly one
    definition to the registry, made of the constructor's arguments and the
    wire-id of the new event, and touches no buffer. *)
Theorem construction_registers (ArgTypes : list ArgType) (wire_id flags : Z)
    (event_class : EventClass) (name_spec : option string) (w : World) :
  let auto := next_event_id_ w in
  let drawn := set_next_event_id (to_int32 (auto + 1)) w in
  let added d w := set_event_definitions (event_definitions_ w ++ [d]) w in
  (EventIf.ctor false ArgTypes name_spec w = Some (EventIf.Disabled, w)
   /\ EventIf.ctor_wire_id false ArgTypes wire_id event_class flags name_spec w
      = Some (EventIf.Disabled, w)
   /\ EventIf.ctor_class false ArgTypes event_class flags name_spec w
      = Some (EventIf.Disabled, w)
   /\ ScopedEventIf.ctor false ArgTypes name_spec w
      = Some (ScopedEventIf.Disabled, w))
  /\ (EventIf.ctor true ArgTypes name_spec w
      = Some (EventIf.Enabled auto,
              added (EventDefinition.Create ArgTypes auto kInstance 0
                       name_spec) drawn)
      /\ EventIf.ctor_wire_id true ArgTypes wire_id event_class flags
           name_spec w
         = Some (EventIf.Enabled wire_id,
                 added (EventDefinition.Create ArgTypes wire_id event_class
                          flags name_spec) w)
      /\ EventIf.ctor_class true ArgTypes event_class flags name_spec w
         = Some (EventIf.Enabled auto,
                 added (EventDefinition.Create ArgTypes auto event_class flags
                          name_spec) drawn)
      /\ ScopedEventIf.ctor true ArgTypes name_spec w
         = Some (ScopedEventIf.Enabled (EventIf.Enabled auto),
                 added (EventDefinition.Create ArgTypes auto kScoped 0
                          name_spec) drawn)).
Proof. repeat split. Qed.

(** ** Wire-ids *)

Lemma to_int32_add_l (x y : Z) : to_int32 (to_int32 x + y) = to_int32 (x + y).
Proof.
  unfold to_int32. f_equal.
  replace ((x + 2 ^ 31) mod 2 ^ 32 - 2 ^ 31 + y + 2 ^ 31)
    with ((x + 2 ^ 31) mod 2 ^ 32 + y) by lia.
  rewrite Zplus_mod_idemp_l. f_equal. lia.
Qed.

Lemma to_int32_inj_near (c i j : Z) :
  0 <= i < 2 ^ 32 -> 0 <= j < 2 ^ 32 ->
  to_int32 (c + i) = to_int32 (c + j) -> i = j.
Proof.
  unfold to_int32. intros Hi Hj H.
  pose proof (Z.div_mod (c + i + 2 ^ 31) (2 ^ 32)) as Di.
  pose proof (Z.div_mod (c + j + 2 ^ 31) (2 ^ 32)) as Dj.
  assert ((c + i + 2 ^ 31) mod 2 ^ 32 = (c + j + 2 ^ 31) mod 2 ^ 32) as E by lia.
  set (qi := (c + i + 2 ^ 31) / 2 ^ 32) in *.
  set (qj := (c + j + 2 ^ 31) / 2 ^ 32) in *.
  rewrite E in Di.
  assert (i - j = 2 ^ 32 * (qi - qj)) as D by lia.
  assert (qi - qj = 0) by lia. lia.
Qed.

Lemma ids_from_seq (n : nat) :
  forall c : Z, is_int32 c ->
  ids_from c n = (fun i : nat => to_int32 (c + Z.of_nat i)) <$> seq 0 n.
Proof.
  induction n as [|n IH]; intros c Hc; [reflexivity|].
  cbn [ids_from seq fmap list_fmap]. f_equal.
  - rewrite Z.add_0_r. symmetry. by apply to_int32_small.
  - rewrite (IH _ (to_int32_range _)), <- fmap_S_seq, <- list_fmap_compose.
    apply list_fmap_ext. intros _ i _. simpl.
    rewrite to_int32_add_l. f_equal. lia.
Qed.

Lemma ids_from_NoDup (c : Z) (n : nat) :
  is_int32 c -> Z.of_nat n <= 2 ^ 32 -> NoDup (ids_from c n).
Proof.
  intros Hc Hn. rewrite (ids_from_seq n c Hc).
  apply NoDup_fmap_2_strong; [|apply NoDup_seq].
  intros i j Hi Hj E. apply elem_of_seq in Hi, Hj.
  apply Nat2Z.inj. apply (to_int32_inj_near c); [lia | lia | exact E].
Qed.

Lemma ids_from_length (n : nat) : forall c : Z, length (ids_from c n) = n.
Proof. induction n as [|n IH]; intros c; simpl; [done | by rewrite IH]. Qed.

Lemma draw_run (n : nat) :
  forall w : World, is_int32 (next_event_id_ w) ->
  exists w' : World,
    draw n w = Some (ids_from (next_event_id_ w) n, w')
    /\ next_event_id_ w' = to_int32 (next_event_id_ w + Z.of_nat n).
Proof.
  induction n as [|n IH]; intros w Hw.
  - exists w. split; [reflexivity|].
    rewrite Z.add_0_r. symmetry. by apply to_int32_small.
  - destruct (IH (set_next_event_id (to_int32 (next_event_id_ w + 1)) w)
                (to_int32_range _)) as (w' & Hrun & Hnext).
    exists w'. split.
    + cbn [draw]. unfold bind at 1. unfold NextEventId.
      unfold bind at 1. rewrite Hrun. reflexivity.
    + rewrite Hnext. simpl next_event_id_. rewrite to_int32_add_l.
      f_equal. lia.
Qed.

(** After 2^32 calls the allocator stands where it started: the next call
    returns the value the first one returned. *)
Lemma NextEventId_wraps (w : World) :
  is_int32 (next_event_id_ w) ->
  exists (ids : list Z) (w' : World),
    draw (Z.to_nat (2 ^ 32)) w = Some (ids, w')
    /\ NextEventId w' = Some (next_event_id_ w,
                              set_next_event_id
                                (to_int32 (next_event_id_ w + 1)) w').
Proof.
  intros Hw.
  destruct (draw_run (Z.to_nat (2 ^ 32)) w Hw) as (w' & Hrun & Hnext).
  exists (ids_from (next_event_id_ w) (Z.to_nat (2 ^ 32))), w'.
  split; [exact Hrun|].
  assert (next_event_id_ w' = next_event_id_ w) as E;
    [|unfold NextEventId; rewrite E; reflexivity].
  rewrite Hnext, Z2Nat.id by lia.
  unfold to_int32, is_int32 in *.
  rewrite <- (Z.mod_unique (next_event_id_ w + 2 ^ 32 + 2 ^ 31) (2 ^ 32) 1
                (next_event_id_ w + 2 ^ 31)) by lia.
  lia.
Qed.

(** One declaration: it registers nothing, or it registers the wire-id it
    is given and leaves the counter, or it registers the value of the
    counter and moves the counter on. *)
Lemma declare_step (d : declaration) (w : World) :
  (registers d = false /\ draws d = false /\ declare d w = Some (tt, w))
  \/ (exists (def : EventDefinition.t) (w' : World),
        registers d = true
        /\ declare d w = Some (tt, w')
        /\ event_definitions_ w' = event_definitions_ w ++ [def]
        /\ (draws d = false /\ next_event_id_ w' = next_event_id_ w
            \/ draws d = true
               /\ EventDefinition.wire_id def = next_event_id_ w
               /\ next_event_id_ w' = to_int32 (next_event_id_ w + 1))).
Proof.
  destruct d as [[] A n | [] A id c f n | [] A c f n | [] A n];
    try (left; done);
    right; eexists _, _; (split; [reflexivity|]);
    (split; [reflexivity|]); (split; [reflexivity|]);
    first [ left; done | right; done ].
Qed.

Lemma declare_all_ids (ds : list declaration) :
  forall w : World,
  exists (new : list EventDefinition.t) (w' : World),
    declare_all ds w = Some (tt, w')
    /\ event_definitions_ w' = event_definitions_ w ++ new
    /\ length new = length (List.filter registers ds)
    /\ EventDefinition.wire_id <$> auto_registered new ds
       = ids_from (next_event_id_ w) (length (List.filter draws ds)).
Proof.
  induction ds as [|d ds IH]; intros w.
  - exists [], w. rewrite app_nil_r. done.
  - destruct (declare_step d w)
      as [(Hr & Hd & Hrun)
         | (def & w1 & Hr & Hrun & Hdefs
            & [[Hd Hnext] | (Hd & Hid & Hnext)])].
    + destruct (IH w) as (new & w' & Hall & Hnew & Hlen & Hids).
      exists new, w'.
      unfold auto_registered in *.
      cbn [declare_all List.filter]. unfold bind at 1.
      rewrite Hrun, Hr, ?Hd. done.
    + destruct (IH w1) as (new & w' & Hall & Hnew & Hlen & Hids).
      exists (def :: new), w'.
      unfold auto_registered in *.
      cbn [declare_all List.filter]. unfold bind at 1.
      rewrite Hrun, Hr, ?Hd. split; [exact Hall|].
      split; [by rewrite Hnew, Hdefs, <- app_assoc|].
      split; [simpl; by rewrite Hlen|].
      cbn [zip zip_with List.filter snd].
      rewrite Hd. rewrite <- Hnext. exact Hids.
    + destruct (IH w1) as (new & w' & Hall & Hnew & Hlen & Hids).
      exists (def :: new), w'.
      unfold auto_registered in *.
      cbn [declare_all List.filter]. unfold bind at 1.
      rewrite Hrun, Hr, ?Hd. split; [exact Hall|].
      split; [by rewrite Hnew, Hdefs, <- app_assoc|].
      split; [simpl; by rewrite Hlen|].
      cbn [zip zip_with List.filter snd].
      rewrite Hd. cbn [fmap list_fmap fst length ids_from].
      rewrite Hid. f_equal. rewrite <- Hnext. exact Hids.
Qed.

Lemma auto_registered_length (ds : list declaration) :
  forall new : list EventDefinition.t,
  length new = length (List.filter registers ds) ->
  length (auto_registered new ds) = length (List.filter draws ds).
Proof.
  unfold auto_registered.
  induction ds as [|d ds IH]; intros new Hlen; [by destruct new|].
  cbn [List.filter] in *.
  destruct (registers d) eqn:Hr.
  - destruct new as [|def new]; [discriminate Hlen|].
    injection Hlen as Hlen. cbn [zip zip_with List.filter snd].
    specialize (IH new Hlen). rewrite !length_fmap in *.
    destruct (draws d); simpl; by rewrite IH.
  - assert (draws d = false) as -> by (destruct d; simpl in *; done).
    by apply IH.
Qed.

(** C7, as stated, fails: an event declared with the constructor that takes
    the wire-id is registered under whatever id it is given, here the id the
    allocator has handed to the declaration before it. *)
Lemma wire_ids_not_unique : ~ wire_ids_unique.
Proof.
  intros H.
  specialize (H [Decl_Event true [] (Some "A#B"%string);
                 Decl_Event_wire_id true [] 100 kInstance 0
                   (Some "C#D"%string)]
                world_bound _ eq_refl eq_refl).
  cbn in H. apply NoDup_cons in H as [Hin _]. apply Hin. left.
Qed.

(** C7, amended.  Whatever is declared, in whatever order: of the
    definitions that the declarations register, those whose constructor
    has drawn the wire-id from [NextEventId] have pairwise distinct
    wire-ids, as long as at most 2^32 ids are drawn; and any 2^32 or fewer
    calls of [NextEventId] in a row return pairwise distinct values. *)
Theorem auto_wire_ids_unique (ds : list declaration) (n : nat) (w : World) :
  is_int32 (next_event_id_ w) ->
  Z.of_nat (length (List.filter draws ds)) <= 2 ^ 32 ->
  Z.of_nat n <= 2 ^ 32 ->
  (exists (new : list EventDefinition.t) (w' : World),
     declare_all ds w = Some (tt, w')
     /\ event_definitions_ w' = event_definitions_ w ++ new
     /\ length new = length (List.filter registers ds)
     /\ length (auto_registered new ds) = length (List.filter draws ds)
     /\ NoDup (EventDefinition.wire_id <$> auto_registered new ds))
  /\ (exists (ids : list Z) (w' : World),
        draw n w = Some (ids, w') /\ length ids = n /\ NoDup ids).
Proof.
  intros Hw Hlen Hn. split.
  - destruct (declare_all_ids ds w) as (new & w' & Hall & Hnew & Hl & Hids).
    exists new, w'.
    split; [exact Hall|]. split; [exact Hnew|]. split; [exact Hl|].
    split; [by apply auto_registered_length|].
    rewrite Hids. by apply ids_from_NoDup.
  - destruct (draw_run n w Hw) as (w' & Hrun & _).
    exists (ids_from (next_event_id_ w) n), w'.
    repeat split; [exact Hrun | apply ids_from_length |].
    by apply ids_from_NoDup.
Qed.

Lemma auto_wire_ids_unique_witness :
  let ds := [Decl_Event true [] (Some "A#B"%string);
             Decl_Event_wire_id true [] 100 kInstance 0 (Some "G#H"%string);
             Decl_ScopedEvent true [T_int32] (Some "C#D: i"%string);
             Decl_Event false [] (Some "E#F"%string)] in
  (exists (new : list EventDefinition.t) (w' : World),
     declare_all ds world_bound = Some (tt, w')
     /\ event_definitions_ w' = event_definitions_ world_bound ++ new
     /\ length new = 3%nat
     /\ length (auto_registered new ds) = 2%nat
     /\ NoDup (EventDefinition.wire_id <$> auto_registered new ds))
  /\ (exists (ids : list Z) (w' : World),
        draw 3 world_bound = Some (ids, w')
        /\ length ids = 3%nat /\ NoDup ids).
Proof.
  intros ds.
  apply (auto_wire_ids_unique ds 3 world_bound).
  - unfold is_int32. simpl. lia.
  - simpl. lia.
  - lia.
Defined.

(** * Further properties of the header and of the test fixture *)

(** ** Emission on the calling thread *)

(** X1.  On a thread with a live buffer bound that has not overflowed and
    has room for the record, [Invoke] of an enabled event and [Enter] of an
    enabled scoped event append the record (wire-id,
    timestamp, encoded arguments) to the bound buffer. *)
Theorem Invoke_bound_record (ev : EventIf.enabled)
    (sc : ScopedEventIf.enabled) (a : addr) (b : EventBuffer.t)
    (args : list ArgValue) (w : World) :
  event_buffer_key w = Some a -> heap_ w !! a = Some b ->
  EventBuffer.has_room (2 + length args) b = true ->
  let enc := wire_encoding_list (EventBuffer.string_table_ b) args in
  let after id :=
    tick (update_buffer a (appended b (record id w (fst enc)) (snd enc)) w) in
  EventIf.Invoke true ev args w = Some (tt, after (EventIf.wire_id_ ev))
  /\ ScopedEventIf.Enter true sc args w
     = Some (tt, after (EventIf.wire_id_ (ScopedEventIf.base sc))).
Proof.
  intros Hkey Hb Hroom enc after. split.
  - unfold EventIf.Invoke, bind, PlatformGetThreadLocalEventBuffer.
    rewrite Hkey. cbn [non_null].
    apply (InvokeSpecific_run ev a b args w Hb Hroom).
  - unfold ScopedEventIf.Enter, bind, PlatformGetThreadLocalEventBuffer.
    rewrite Hkey. cbn [non_null]. unfold ScopedEventIf.EnterSpecific.
    apply (InvokeSpecific_run (ScopedEventIf.base sc) a b args w Hb Hroom).
Qed.

Lemma Invoke_bound_record_witness :
  EventIf.Invoke true (EventIf.Enabled 100) [V_uint16 7] world_bound
  = Some (tt, tick (update_buffer 1%positive
                      (appended EventBuffer.empty [100; 1000; 7]
                         StringTable.empty) world_bound))
  /\ ScopedEventIf.Enter true (ScopedEventIf.Enabled (EventIf.Enabled 101))
       [V_uint16 7] world_bound
     = Some (tt, tick (update_buffer 1%positive
                         (appended EventBuffer.empty [101; 1000; 7]
                            StringTable.empty) world_bound)).
Proof.
  apply (Invoke_bound_record (EventIf.Enabled 100)
           (ScopedEventIf.Enabled (EventIf.Enabled 101)) 1%positive
           EventBuffer.empty [V_uint16 7] world_bound); reflexivity.
Defined.

(** X2.  An emission into a live buffer that has not overflowed and has
    room for the record only appends, and only to its buffer: the entries
    the buffer had are kept in front, exactly [2 + n] entries follow for [n]
    arguments, every other buffer is as before, and the registry, the id
    counter and the thread's binding are untouched. *)
Theorem InvokeSpecific_appends (this : EventIf.enabled) (a : addr)
    (b : EventBuffer.t) (args : list ArgValue) (w : World) :
  heap_ w !! a = Some b ->
  EventBuffer.has_room (2 + length args) b = true ->
  exists (es : list Z) (b' : EventBuffer.t) (w' : World),
    EventIf.InvokeSpecific true this (Some a) args w = Some (tt, w')
    /\ heap_ w' !! a = Some b'
    /\ EventBuffer.entries_ b' = EventBuffer.entries_ b ++ es
    /\ length es = (2 + length args)%nat
    /\ (forall a' : addr, a' ≠ a -> heap_ w' !! a' = heap_ w !! a')
    /\ event_definitions_ w' = event_definitions_ w
    /\ next_event_id_ w' = next_event_id_ w
    /\ event_buffer_key w' = event_buffer_key w.
Proof.
  intros H Hroom.
  pose proof (InvokeSpecific_run this a b args w H Hroom) as Hrun.
  simpl in Hrun.
  eexists _, _, _. split; [exact Hrun|].
  split; [apply update_buffer_lookup|].
  split; [reflexivity|].
  split.
  { unfold record. rewrite !length_app, wire_encoding_list_length.
    reflexivity. }
  split; [|done].
  intros a' Ha'. simpl. by apply lookup_insert_ne.
Qed.

Lemma InvokeSpecific_appends_witness :
  exists (es : list Z) (b' : EventBuffer.t) (w' : World),
    EventIf.InvokeSpecific true (EventIf.Enabled 100) (Some 1%positive)
      [V_int32 5; V_cstr None] world_bound = Some (tt, w')
    /\ heap_ w' !! 1%positive = Some b'
    /\ EventBuffer.entries_ b' = EventBuffer.entries_ EventBuffer.empty ++ es
    /\ length es = 4%nat
    /\ (forall a' : addr,
          a' ≠ 1%positive -> heap_ w' !! a' = heap_ world_bound !! a')
    /\ event_definitions_ w' = event_definitions_ world_bound
    /\ next_event_id_ w' = next_event_id_ world_bound
    /\ event_buffer_key w' = event_buffer_key world_bound.
Proof.
  apply (InvokeSpecific_appends (EventIf.Enabled 100) 1%positive
           EventBuffer.empty [V_int32 5; V_cstr None] world_bound);
    reflexivity.
Defined.

(** X3.  [LeaveSpecific] emits what invoking the standard scope-leave
    event, an instance event without arguments under the fixed wire-id
    [kScopeLeaveEventId], emits: the same outcome for every scoped event,
    every buffer pointer and every state. *)
Theorem LeaveSpecific_is_scope_leave_event (this : ScopedEventIf.enabled)
    (event_buffer : ptr) (w : World) :
  ScopedEventIf.LeaveSpecific true this event_buffer w
  = EventIf.InvokeSpecific true
      (EventIf.Enabled StandardEvents.kScopeLeaveEventId) event_buffer [] w.
Proof.
  unfold ScopedEventIf.LeaveSpecific, EventIf.InvokeSpecific, bind.
  cbn [EventIf.wire_id_ EventIf.EmitArguments].
  destruct (AddEntry event_buffer StandardEvents.kScopeLeaveEventId w)
    as [[[] w1]|]; [|reflexivity].
  destruct (PlatformGetTimestampMicros32 w1) as [[now w2]|]; [|reflexivity].
  destruct (AddEntry event_buffer now w2) as [[[] w3]|]; reflexivity.
Qed.

(** X4.  Emitting a list of arguments is emitting its parts one after the
    other, whatever the buffer pointer and the state. *)
Theorem EmitArguments_app (event_buffer : ptr) (args1 args2 : list ArgValue) :
  forall w : World,
  EventIf.EmitArguments event_buffer (args1 ++ args2) w
  = (EventIf.EmitArguments event_buffer args1 >>
     EventIf.EmitArguments event_buffer args2) w.
Proof.
  induction args1 as [|first rest IH]; intros w; [reflexivity|].
  cbn [app EventIf.EmitArguments]. unfold bind.
  destruct (ArgTypeDef.Emit event_buffer first w) as [[u w1]|];
    [|reflexivity].
  apply IH.
Qed.

(** ** Arguments and the values read back from their entries *)

Lemma to_int32_to_uint32 (v : Z) : is_int32 v -> to_int32 (to_uint32 v) = v.
Proof.
  unfold is_int32, to_int32, to_uint32. intros Hv.
  destruct (Z_lt_le_dec v 0) as [Hneg|Hpos].
  - rewrite <- (Z.mod_unique v (2 ^ 32) (-1) (v + 2 ^ 32)) by lia.
    rewrite <- (Z.mod_unique (v + 2 ^ 32 + 2 ^ 31) (2 ^ 32) 1 (v + 2 ^ 31))
      by lia.
    lia.
  - rewrite (Z.mod_small v) by lia. rewrite Z.mod_small by lia. lia.
Qed.

Lemma to_int16_to_uint16 (v : Z) : is_int16 v -> to_int16 (to_uint16 v) = v.
Proof.
  unfold is_int16, to_int16, to_uint16. intros Hv.
  destruct (Z_lt_le_dec v 0) as [Hneg|Hpos].
  - rewrite <- (Z.mod_unique v (2 ^ 16) (-1) (v + 2 ^ 16)) by lia.
    rewrite <- (Z.mod_unique (v + 2 ^ 16 + 2 ^ 15) (2 ^ 16) 1 (v + 2 ^ 15))
      by lia.
    lia.
  - rewrite (Z.mod_small v) by lia. rewrite Z.mod_small by lia. lia.
Qed.

(** X5.  Into a live buffer that has not overflowed and has room for an
    entry, a [uint16_t] and a [uint32_t] argument are emitted as they are:
    the one entry appended is the value. *)
Theorem Emit_unsigned_verbatim (a : addr) (b : EventBuffer.t) (v16 v32 : Z)
    (w : World) :
  heap_ w !! a = Some b -> EventBuffer.has_room 1 b = true ->
  is_uint16 v16 -> is_uint32 v32 ->
  ArgTypeDef.Emit (Some a) (V_uint16 v16) w
  = Some (tt, update_buffer a
                (appended b [v16] (EventBuffer.string_table_ b)) w)
  /\ ArgTypeDef.Emit (Some a) (V_uint32 v32) w
     = Some (tt, update_buffer a
                   (appended b [v32] (EventBuffer.string_table_ b)) w).
Proof.
  intros H Hroom H16 H32. split.
  - rewrite (Emit_run a b (V_uint16 v16) w H Hroom). simpl.
    unfold to_uint16, is_uint16 in *. by rewrite Z.mod_small by lia.
  - rewrite (Emit_run a b (V_uint32 v32) w H Hroom). simpl.
    by rewrite to_uint32_small.
Qed.

Lemma Emit_unsigned_verbatim_witness :
  ArgTypeDef.Emit (Some 1%positive) (V_uint16 65535) world_bound
  = Some (tt, update_buffer 1%positive
                (appended EventBuffer.empty [65535] StringTable.empty)
                world_bound)
  /\ ArgTypeDef.Emit (Some 1%positive) (V_uint32 4294967295) world_bound
     = Some (tt, update_buffer 1%positive
                   (appended EventBuffer.empty [4294967295] StringTable.empty)
                   world_bound).
Proof.
  apply (Emit_unsigned_verbatim 1%positive EventBuffer.empty 65535 4294967295
           world_bound).
  - reflexivity.
  - reflexivity.
  - unfold is_uint16. lia.
  - unfold is_uint32. lia.
Defined.

(** X6.  A signed argument emitted into a live buffer that has not
    overflowed and has room for an entry can be read back from the one
    entry it is emitted as: an [int32_t] by reading the entry as a signed 32-bit value,
    an [int16_t] by reading the low 16 bits of the entry as a signed 16-bit
    value. *)
Theorem Emit_signed_round_trip (a : addr) (b : EventBuffer.t) (v16 v32 : Z)
    (w : World) :
  heap_ w !! a = Some b -> EventBuffer.has_room 1 b = true ->
  is_int16 v16 -> is_int32 v32 ->
  (exists e : Z,
     ArgTypeDef.Emit (Some a) (V_int32 v32) w
     = Some (tt, update_buffer a
                   (appended b [e] (EventBuffer.string_table_ b)) w)
     /\ is_uint32 e /\ to_int32 e = v32)
  /\ (exists e : Z,
        ArgTypeDef.Emit (Some a) (V_int16 v16) w
        = Some (tt, update_buffer a
                      (appended b [e] (EventBuffer.string_table_ b)) w)
        /\ is_uint32 e /\ to_int16 e = v16).
Proof.
  intros H Hroom H16 H32. split.
  - exists (to_uint32 v32).
    split; [apply (Emit_run a b (V_int32 v32) w H Hroom)|].
    split; [|by apply to_int32_to_uint32].
    unfold is_uint32, to_uint32. apply Z.mod_pos_bound. lia.
  - exists (to_uint16 v16).
    split; [apply (Emit_run a b (V_int16 v16) w H Hroom)|].
    split; [|by apply to_int16_to_uint16].
    rewrite <- to_uint32_to_uint16.
    unfold is_uint32, to_uint32. apply Z.mod_pos_bound. lia.
Qed.

Lemma Emit_signed_round_trip_witness :
  (exists e : Z,
     ArgTypeDef.Emit (Some 1%positive) (V_int32 (-7)) world_bound
     = Some (tt, update_buffer 1%positive
                   (appended EventBuffer.empty [e] StringTable.empty)
                   world_bound)
     /\ is_uint32 e /\ to_int32 e = -7)
  /\ (exists e : Z,
        ArgTypeDef.Emit (Some 1%positive) (V_int16 (-7)) world_bound
        = Some (tt, update_buffer 1%positive
                      (appended EventBuffer.empty [e] StringTable.empty)
                      world_bound)
        /\ is_uint32 e /\ to_int16 e = -7).
Proof.
  apply (Emit_signed_round_trip 1%positive EventBuffer.empty (-7) (-7)
           world_bound).
  - reflexivity.
  - reflexivity.
  - unfold is_int16. lia.
  - unfold is_int32. lia.
Defined.

(** ** Emissions one after the other *)

Lemma Invoke_run (ev : EventIf.enabled) (a : addr) (b : EventBuffer.t)
    (args : list ArgValue) (w : World) :
  event_buffer_key w = Some a -> heap_ w !! a = Some b ->
  EventBuffer.has_room (2 + length args) b = true ->
  let enc := wire_encoding_list (EventBuffer.string_table_ b) args in
  EventIf.Invoke true ev args w
  = Some (tt, tick (update_buffer a
                      (appended b (record (EventIf.wire_id_ ev) w (fst enc))
                         (snd enc)) w)).
Proof.
  intros Hkey Hb Hroom enc.
  unfold EventIf.Invoke, bind, PlatformGetThreadLocalEventBuffer.
  rewrite Hkey. cbn [non_null].
  apply (InvokeSpecific_run ev a b args w Hb Hroom).
Qed.

Lemma record_length (wire_id : Z) (w : World) (es : list Z) :
  length (record wire_id w es) = (2 + length es)%nat.
Proof. reflexivity. Qed.

Lemma update_buffer_after_tick (a : addr) (b1 b2 : EventBuffer.t)
    (w : World) :
  update_buffer a b2 (tick (update_buffer a b1 w))
  = tick (update_buffer a b2 w).
Proof. by rewrite update_buffer_tick, update_buffer_twice. Qed.

(** X7.  Two invocations on a thread with a live buffer bound, which has
    not overflowed and has room for both records, leave their records in
    program order: the record of the first, then the record of
    the second, whose timestamp is the next reading of the clock and whose
    strings are looked up in the table the first has left. *)
Theorem Invoke_program_order (ev1 ev2 : EventIf.enabled) (a : addr)
    (b : EventBuffer.t) (args1 args2 : list ArgValue) (w : World) :
  event_buffer_key w = Some a -> heap_ w !! a = Some b ->
  EventBuffer.has_room ((2 + length args1) + (2 + length args2)) b = true ->
  let enc1 := wire_encoding_list (EventBuffer.string_table_ b) args1 in
  let enc2 := wire_encoding_list (snd enc1) args2 in
  (EventIf.Invoke true ev1 args1 >> EventIf.Invoke true ev2 args2) w
  = Some (tt, tick (tick (update_buffer a
                            (appended b
                               (record (EventIf.wire_id_ ev1) w (fst enc1)
                                ++ record (EventIf.wire_id_ ev2) (tick w)
                                     (fst enc2))
                               (snd enc2)) w))).
Proof.
  intros Hkey Hb Hroom enc1 enc2. unfold bind.
  rewrite (Invoke_run ev1 a b args1 w Hkey Hb
             (has_room_le (2 + length args1)
                ((2 + length args1) + (2 + length args2)) b ltac:(lia)
                Hroom)). fold enc1.
  set (b1 := appended b (record (EventIf.wire_id_ ev1) w (fst enc1))
               (snd enc1)).
  assert (heap_ (tick (update_buffer a b1 w)) !! a = Some b1) as Hb1
    by apply update_buffer_lookup.
  assert (EventBuffer.has_room (2 + length args2) b1 = true) as Hroom1.
  { apply has_room_appended.
    rewrite record_length. unfold enc1.
    by rewrite wire_encoding_list_length. }
  rewrite (Invoke_run ev2 a b1 args2 (tick (update_buffer a b1 w)) Hkey Hb1
             Hroom1).
  rewrite update_buffer_after_tick. unfold b1.
  rewrite appended_appended. reflexivity.
Qed.

Lemma Invoke_program_order_witness :
  (EventIf.Invoke true (EventIf.Enabled 100) [V_int32 1] >>
   EventIf.Invoke true (EventIf.Enabled 101) []) world_bound
  = Some (tt, tick (tick (update_buffer 1%positive
                            (appended EventBuffer.empty
                               [100; 1000; 1; 101; 1001] StringTable.empty)
                            world_bound))).
Proof.
  apply (Invoke_program_order (EventIf.Enabled 100) (EventIf.Enabled 101)
           1%positive EventBuffer.empty [V_int32 1] [] world_bound);
    reflexivity.
Defined.

(** ** Blocks under a scope guard *)

Lemma scope_block_bound (sc : ScopedEventIf.enabled) (args : list ArgValue)
    (body : M unit) (a : addr) (b b1 : EventBuffer.t) (w w1 : World) :
  event_buffer_key w = Some a -> heap_ w !! a = Some b ->
  EventBuffer.has_room (2 + length args) b = true ->
  let enc := wire_encoding_list (EventBuffer.string_table_ b) args in
  body (tick (update_buffer a
                (appended b
                   (record (EventIf.wire_id_ (ScopedEventIf.base sc)) w
                      (fst enc))
                   (snd enc)) w))
  = Some (tt, w1) ->
  heap_ w1 !! a = Some b1 ->
  EventBuffer.has_room 2 b1 = true ->
  scope_block true sc args body w
  = Some (tt, tick (update_buffer a
                      (appended b1 [2; timestamp w1]
                         (EventBuffer.string_table_ b1)) w1)).
Proof.
  intros Hkey Hb Hroom enc Hbody Hb1 Hroom1.
  unfold scope_block, declare_scope, AutoScopeIf.ctor, AutoScopeIf.Enter,
    bind, ret, PlatformGetThreadLocalEventBuffer.
  rewrite Hkey. cbn [non_null AutoScopeIf.event_buffer_ AutoScopeIf.event_].
  unfold ScopedEventIf.EnterSpecific.
  rewrite (InvokeSpecific_run (ScopedEventIf.base sc) a b args w Hb Hroom).
  fold enc. rewrite Hbody.
  unfold AutoScopeIf.dtor.
  cbn [non_null AutoScopeIf.event_buffer_ AutoScopeIf.event_].
  apply (LeaveSpecific_run sc a b1 w1 Hb1 Hroom1).
Qed.

(** X8.  A block under an enabled guard, entered on a thread with a live
    buffer bound that has not overflowed, has room for the enter record
    and, when the body is done, for the leave record: the enter record is appended before the body runs, and
    when the body is done the leave record [2; timestamp] is appended to the
    buffer captured at entry, behind whatever the body has left there. *)
Theorem scope_block_brackets (sc : ScopedEventIf.enabled)
    (args : list ArgValue) (body : M unit) (a : addr) (b b1 : EventBuffer.t)
    (w w1 : World) :
  event_buffer_key w = Some a -> heap_ w !! a = Some b ->
  EventBuffer.has_room (2 + length args) b = true ->
  let enc := wire_encoding_list (EventBuffer.string_table_ b) args in
  body (tick (update_buffer a
                (appended b
                   (record (EventIf.wire_id_ (ScopedEventIf.base sc)) w
                      (fst enc))
                   (snd enc)) w))
  = Some (tt, w1) ->
  heap_ w1 !! a = Some b1 ->
  EventBuffer.has_room 2 b1 = true ->
  scope_block true sc args body w
  = Some (tt, tick (update_buffer a
                      (appended b1 [2; timestamp w1]
                         (EventBuffer.string_table_ b1)) w1)).
Proof. apply scope_block_bound. Qed.

Lemma scope_block_brackets_witness :
  scope_block true (ScopedEventIf.Enabled (EventIf.Enabled 101)) [V_int32 5]
    (EventIf.Invoke true (EventIf.Enabled 100) []) world_bound
  = Some (tt, tick (tick (tick (update_buffer 1%positive
                                  (appended EventBuffer.empty
                                     [101; 1000; 5; 100; 1001; 2; 1002]
                                     StringTable.empty) world_bound)))).
Proof.
  apply (scope_block_brackets (ScopedEventIf.Enabled (EventIf.Enabled 101))
           [V_int32 5] (EventIf.Invoke true (EventIf.Enabled 100) [])
           1%positive EventBuffer.empty
           (appended EventBuffer.empty [101; 1000; 5; 100; 1001]
              StringTable.empty)
           world_bound
           (tick (tick (update_buffer 1%positive
                          (appended EventBuffer.empty
                             [101; 1000; 5; 100; 1001] StringTable.empty)
                          world_bound)))); reflexivity.
Defined.

(** X9.  A guard of the disabled specialisation, and an enabled guard
    entered on a thread without a buffer, add nothing around the body: the
    block is its body, also when the body binds a buffer to the thread. *)
Theorem scope_block_transparent (kEnable : bool)
    (sc : ScopedEventIf.t kEnable) (args : list ArgValue) (body : M unit)
    (w : World) :
  kEnable = false \/ event_buffer_key w = None ->
  scope_block kEnable sc args body w = (body >> ret tt) w.
Proof.
  intros H. destruct kEnable.
  - destruct H as [H|H]; [discriminate H|].
    unfold scope_block, declare_scope, AutoScopeIf.ctor, AutoScopeIf.Enter,
      bind, ret, PlatformGetThreadLocalEventBuffer.
    rewrite H. cbn [non_null AutoScopeIf.event_buffer_ AutoScopeIf.event_].
    reflexivity.
  - reflexivity.
Qed.

Lemma scope_block_transparent_witness :
  scope_block true (ScopedEventIf.Enabled (EventIf.Enabled 101)) []
    (fun w => Some (tt, set_event_buffer_key (Some 1%positive) w))
    world_unbound
  = Some (tt, world_bound).
Proof.
  rewrite (scope_block_transparent true
             (ScopedEventIf.Enabled (EventIf.Enabled 101)) []
             (fun w => Some (tt, set_event_buffer_key (Some 1%positive) w))
             world_unbound (or_intror eq_refl)).
  reflexivity.
Defined.

(** X10.  Two nested blocks without arguments on a thread with a live
    buffer bound, which has not overflowed and has room for eight entries,
    append the enter record of the outer event, the enter
    record of the inner event and two leave records, with four readings of
    the clock in a row; when these readings do not decrease and fit 32 bits,
    the four timestamps do not decrease. *)
Theorem nested_scope_blocks (outer inner : ScopedEventIf.enabled) (a : addr)
    (b : EventBuffer.t) (w : World) :
  event_buffer_key w = Some a -> heap_ w !! a = Some b ->
  EventBuffer.has_room 8 b = true ->
  let t (i : nat) := to_uint32 (micros_ w (clock_reads_ w + i)%nat) in
  let m (i : nat) := micros_ w (clock_reads_ w + i)%nat in
  scope_block true outer [] (scope_block true inner [] (ret tt)) w
  = Some (tt, tick (tick (tick (tick
        (update_buffer a
           (appended b
              [to_uint32 (EventIf.wire_id_ (ScopedEventIf.base outer)); t 0%nat;
               to_uint32 (EventIf.wire_id_ (ScopedEventIf.base inner)); t 1%nat;
               2; t 2%nat; 2; t 3%nat]
              (EventBuffer.string_table_ b)) w)))))
  /\ (0 <= m 0%nat /\ m 0%nat <= m 1%nat /\ m 1%nat <= m 2%nat
      /\ m 2%nat <= m 3%nat /\ m 3%nat < 2 ^ 32 ->
      t 0%nat <= t 1%nat /\ t 1%nat <= t 2%nat /\ t 2%nat <= t 3%nat).
Proof.
  intros Hkey Hb Hroom t m. split.
  - set (b1 := appended b
                 (record (EventIf.wire_id_ (ScopedEventIf.base outer)) w [])
                 (EventBuffer.string_table_ b)).
    set (w1 := tick (update_buffer a b1 w)).
    set (b2 := appended b1
                 (record (EventIf.wire_id_ (ScopedEventIf.base inner)) w1 [])
                 (EventBuffer.string_table_ b1)).
    set (w2 := tick (update_buffer a b2 w1)).
    assert (heap_ w1 !! a = Some b1) as Hb1 by apply update_buffer_lookup.
    assert (heap_ w2 !! a = Some b2) as Hb2 by apply update_buffer_lookup.
    assert (EventBuffer.has_room 6 b1 = true) as Hroom1
      by (apply has_room_appended; exact Hroom).
    assert (EventBuffer.has_room 4 b2 = true) as Hroom2
      by (apply has_room_appended; exact Hroom1).
    assert (scope_block true inner [] (ret tt) w1
            = Some (tt, tick (update_buffer a
                                (appended b2 [2; timestamp w2]
                                   (EventBuffer.string_table_ b2)) w2)))
      as Hinner.
    { apply (scope_block_bound inner [] (ret tt) a b1 b2 w1 w2 Hkey Hb1
               (has_room_le 2 6 b1 ltac:(lia) Hroom1));
        [reflexivity | exact Hb2 | exact (has_room_le 2 4 b2 ltac:(lia) Hroom2)]. }
    set (b3 := appended b2 [2; timestamp w2] (EventBuffer.string_table_ b2))
      in Hinner.
    set (w3 := tick (update_buffer a b3 w2)) in Hinner.
    assert (heap_ w3 !! a = Some b3) as Hb3 by apply update_buffer_lookup.
    assert (EventBuffer.has_room 2 b3 = true) as Hroom3
      by (apply has_room_appended; exact Hroom2).
    rewrite (scope_block_bound outer [] _ a b b3 w w3 Hkey Hb
               (has_room_le 2 8 b ltac:(lia) Hroom) Hinner Hb3 Hroom3).
    f_equal. f_equal.
    unfold w3, b3, w2, b2, w1, b1.
    rewrite !update_buffer_after_tick, !appended_appended.
    unfold record, timestamp, t. cbn [app clock_reads_ micros_ tick
      update_buffer set_heap set_clock_reads EventBuffer.string_table_
      appended].
    rewrite !Nat.add_0_r.
    replace (clock_reads_ w + 1)%nat with (S (clock_reads_ w)) by lia.
    replace (clock_reads_ w + 2)%nat with (S (S (clock_reads_ w))) by lia.
    replace (clock_reads_ w + 3)%nat with (S (S (S (clock_reads_ w)))) by lia.
    reflexivity.
  - intros (H0 & H1 & H2 & H3 & H4). unfold t. fold (m 0%nat) (m 1%nat)
      (m 2%nat) (m 3%nat).
    rewrite !to_uint32_small by (unfold is_uint32; lia). lia.
Qed.

Lemma nested_scope_blocks_witness :
  scope_block true (ScopedEventIf.Enabled (EventIf.Enabled 101)) []
    (scope_block true (ScopedEventIf.Enabled (EventIf.Enabled 102)) []
       (ret tt)) world_bound
  = Some (tt, tick (tick (tick (tick
        (update_buffer 1%positive
           (appended EventBuffer.empty
              [101; 1000; 102; 1001; 2; 1002; 2; 1003]
              StringTable.empty) world_bound)))))
  /\ (1000 <= 1001 /\ 1001 <= 1002 /\ 1002 <= 1003).
Proof.
  destruct (nested_scope_blocks (ScopedEventIf.Enabled (EventIf.Enabled 101))
              (ScopedEventIf.Enabled (EventIf.Enabled 102)) 1%positive
              EventBuffer.empty world_bound eq_refl eq_refl eq_refl)
    as [H1 H2].
  split; [exact H1|].
  apply H2. simpl. lia.
Defined.

(** ** The allocator of wire-ids, short of the overflow *)

(** X11.  As long as the counter stays below 2^31, the calls of
    [NextEventId] return consecutive integers: the [i]-th of [n] calls
    returns the value the counter had at the start plus [i], and the counter
    ends [n] higher. *)
Theorem NextEventId_consecutive (n : nat) (w : World) :
  is_int32 (next_event_id_ w) ->
  next_event_id_ w + Z.of_nat n < 2 ^ 31 ->
  exists w' : World,
    draw n w
    = Some ((fun i : nat => next_event_id_ w + Z.of_nat i) <$> seq 0 n, w')
    /\ next_event_id_ w' = next_event_id_ w + Z.of_nat n.
Proof.
  intros Hw Hn.
  destruct (draw_run n w Hw) as (w' & Hrun & Hnext).
  exists w'. split.
  - rewrite Hrun, (ids_from_seq n _ Hw). do 2 f_equal.
    apply list_fmap_ext. intros k i Hi.
    apply lookup_seq in Hi as [-> Hk].
    apply to_int32_small. unfold is_int32 in *. lia.
  - rewrite Hnext. apply to_int32_small. unfold is_int32 in *. lia.
Qed.

Lemma NextEventId_consecutive_witness :
  exists w' : World,
    draw 3 world_bound
    = Some ((fun i : nat => next_event_id_ world_bound + Z.of_nat i)
              <$> seq 0 3, w')
    /\ next_event_id_ w' = next_event_id_ world_bound + Z.of_nat 3.
Proof.
  apply (NextEventId_consecutive 3 world_bound).
  - unfold is_int32. simpl. lia.
  - simpl. lia.
Defined.

(** X17.  The allocator repeats itself: after 2^32 calls, the first of
    which returned the value the counter started with, the next call
    returns that value again. *)
Theorem NextEventId_repeats (w : World) :
  is_int32 (next_event_id_ w) ->
  exists (ids : list Z) (w' : World),
    draw (Z.to_nat (2 ^ 32)) w = Some (ids, w')
    /\ ids !! 0%nat = Some (next_event_id_ w)
    /\ fst <$> NextEventId w' = Some (next_event_id_ w).
Proof.
  intros Hw.
  destruct (draw_run (Z.to_nat (2 ^ 32)) w Hw) as (w' & Hrun & Hnext).
  exists (ids_from (next_event_id_ w) (Z.to_nat (2 ^ 32))), w'.
  split; [exact Hrun|]. split.
  - rewrite (ids_from_seq _ _ Hw), list_lookup_fmap, lookup_seq_lt by lia.
    cbn [fmap option_fmap option_map Nat.add]. f_equal.
    rewrite Z.add_0_r. by apply to_int32_small.
  - unfold NextEventId. cbn [fmap option_fmap option_map fst]. f_equal.
    rewrite Hnext, Z2Nat.id by lia.
    unfold to_int32, is_int32 in *.
    rewrite <- (Z.mod_unique (next_event_id_ w + 2 ^ 32 + 2 ^ 31) (2 ^ 32) 1
                  (next_event_id_ w + 2 ^ 31)) by lia.
    lia.
Qed.

Lemma NextEventId_repeats_witness :
  exists (ids : list Z) (w' : World),
    draw (Z.to_nat (2 ^ 32)) world_bound = Some (ids, w')
    /\ ids !! 0%nat = Some (next_event_id_ world_bound)
    /\ fst <$> NextEventId w' = Some (next_event_id_ world_bound).
Proof.
  apply (NextEventId_repeats world_bound).
  unfold is_int32, world_bound, next_event_id_. lia.
Defined.

(** ** What declarations do to the process *)

Lemma declare_run (d : declaration) (w : World) :
  exists (new : list EventDefinition.t) (w' : World),
    declare d w = Some (tt, w')
    /\ event_definitions_ w' = event_definitions_ w ++ new
    /\ EventDefinition.name_spec_ <$> new
       = declared_name <$> List.filter registers [d]
    /\ EventDefinition.event_class_ <$> new
       = declared_class <$> List.filter registers [d]
    /\ EventDefinition.argument_zipper_ <$> new
       = declared_types <$> List.filter registers [d]
    /\ heap_ w' = heap_ w
    /\ event_buffer_key w' = event_buffer_key w
    /\ clock_reads_ w' = clock_reads_ w.
Proof.
  destruct d as [[] A n | [] A id c f n | [] A c f n | [] A n];
    first [ by (exists [], w; rewrite app_nil_r)
          | by (eexists [_], _; split; [reflexivity|]) ].
Qed.

(** X12.  Declarations only append to the registry: whatever is declared,
    the definitions registered before stay in front, one definition follows
    for each declaration of an enabled class and none for a disabled one,
    in the order of the declarations and with their names, classes and
    argument types; no buffer, binding or clock reading is touched. *)
Theorem declare_all_registry (ds : list declaration) :
  forall w : World,
  exists (new : list EventDefinition.t) (w' : World),
    declare_all ds w = Some (tt, w')
    /\ event_definitions_ w' = event_definitions_ w ++ new
    /\ EventDefinition.name_spec_ <$> new
       = declared_name <$> List.filter registers ds
    /\ EventDefinition.event_class_ <$> new
       = declared_class <$> List.filter registers ds
    /\ EventDefinition.argument_zipper_ <$> new
       = declared_types <$> List.filter registers ds
    /\ heap_ w' = heap_ w
    /\ event_buffer_key w' = event_buffer_key w
    /\ clock_reads_ w' = clock_reads_ w.
Proof.
  induction ds as [|d ds IH]; intros w.
  - exists [], w. rewrite app_nil_r. done.
  - destruct (declare_run d w)
      as (n1 & w1 & Hrun & Hdefs & Hn & Hc & Ht & Hh & Hk & Hr).
    destruct (IH w1) as (n2 & w2 & Hrun2 & Hdefs2 & Hn2 & Hc2 & Ht2 & Hh2
                         & Hk2 & Hr2).
    exists (n1 ++ n2), w2. cbn [declare_all]. unfold bind at 1.
    rewrite Hrun. split; [exact Hrun2|].
    split; [by rewrite Hdefs2, Hdefs, app_assoc|].
    change (d :: ds) with ([d] ++ ds).
    rewrite List.filter_app, !fmap_app, Hn, Hn2, Hc, Hc2, Ht, Ht2.
    repeat split; congruence.
Qed.

(** X13.  The record a newly constructed event emits, into a live buffer
    that has not overflowed and has room for it, begins with the
    wire-id under which the constructor has just registered its definition,
    for an instance event with an allocated id and for a scoped event. *)
Theorem constructed_event_header (ArgTypes : list ArgType)
    (event_class : EventClass) (flags : Z) (name_spec : option string)
    (args : list ArgValue) (a : addr) (b : EventBuffer.t) (w : World) :
  heap_ w !! a = Some b ->
  EventBuffer.has_room (2 + length args) b = true ->
  (exists (d : EventDefinition.t) (rest : list Z) (b' : EventBuffer.t)
          (w' : World),
     (let* ev := EventIf.ctor_class true ArgTypes event_class flags
                   name_spec in
      EventIf.InvokeSpecific true ev (Some a) args) w = Some (tt, w')
     /\ event_definitions_ w' = event_definitions_ w ++ [d]
     /\ heap_ w' !! a = Some b'
     /\ EventBuffer.entries_ b'
        = EventBuffer.entries_ b
          ++ to_uint32 (EventDefinition.wire_id d) :: rest)
  /\ (exists (d : EventDefinition.t) (rest : list Z) (b' : EventBuffer.t)
             (w' : World),
        (let* sc := ScopedEventIf.ctor true ArgTypes name_spec in
         ScopedEventIf.EnterSpecific true sc (Some a) args) w = Some (tt, w')
        /\ event_definitions_ w' = event_definitions_ w ++ [d]
        /\ EventDefinition.event_class_ d = kScoped
        /\ heap_ w' !! a = Some b'
        /\ EventBuffer.entries_ b'
           = EventBuffer.entries_ b
             ++ to_uint32 (EventDefinition.wire_id d) :: rest).
Proof.
  intros H Hroom. split.
  - set (d := EventDefinition.Create ArgTypes (next_event_id_ w) event_class
                flags name_spec).
    set (w1 := set_event_definitions (event_definitions_ w ++ [d])
                 (set_next_event_id (to_int32 (next_event_id_ w + 1)) w)).
    assert (heap_ w1 !! a = Some b) as H1 by exact H.
    pose proof (InvokeSpecific_run (EventIf.Enabled (next_event_id_ w)) a b
                  args w1 H1 Hroom) as Hrun. simpl in Hrun.
    eexists d, _, _, _. split; [exact Hrun|].
    split; [reflexivity|]. split; [apply update_buffer_lookup|].
    reflexivity.
  - set (d := EventDefinition.Create ArgTypes (next_event_id_ w) kScoped 0
                name_spec).
    set (w1 := set_event_definitions (event_definitions_ w ++ [d])
                 (set_next_event_id (to_int32 (next_event_id_ w + 1)) w)).
    assert (heap_ w1 !! a = Some b) as H1 by exact H.
    pose proof (InvokeSpecific_run (EventIf.Enabled (next_event_id_ w)) a b
                  args w1 H1 Hroom) as Hrun. simpl in Hrun.
    eexists d, _, _, _. split; [exact Hrun|].
    split; [reflexivity|]. split; [reflexivity|].
    split; [apply update_buffer_lookup|].
    reflexivity.
Qed.

Lemma constructed_event_header_witness :
  exists (d : EventDefinition.t) (rest : list Z) (b' : EventBuffer.t)
         (w' : World),
    (let* ev := EventIf.ctor_class true [T_int32] kInstance 0
                  (Some "X#Y: i"%string) in
     EventIf.InvokeSpecific true ev (Some 1%positive) [V_int32 42])
      world_bound = Some (tt, w')
    /\ event_definitions_ w' = event_definitions_ world_bound ++ [d]
    /\ heap_ w' !! 1%positive = Some b'
    /\ EventBuffer.entries_ b'
       = EventBuffer.entries_ EventBuffer.empty
         ++ to_uint32 (EventDefinition.wire_id d) :: rest.
Proof.
  apply (constructed_event_header [T_int32] kInstance 0
           (Some "X#Y: i"%string) [V_int32 42] 1%positive EventBuffer.empty
           world_bound); reflexivity.
Defined.

(** ** The fixture of macros_test.cc *)

Lemma EventsHaveBeenLogged_run (a : addr) (b : EventBuffer.t) (w : World) :
  event_buffer_key w = Some a -> heap_ w !! a = Some b ->
  EventsHaveBeenLogged w
  = Some (match EventBuffer.entries_ b with [] => false | _ :: _ => true end,
          w).
Proof.
  intros Hkey Hb.
  unfold EventsHaveBeenLogged, bind, PlatformGetThreadLocalEventBuffer.
  rewrite Hkey. cbn [non_null negb].
  unfold EventBuffer_empty, bind, load, ret. rewrite Hb.
  by destruct (EventBuffer.entries_ b).
Qed.

Lemma logged_nonempty (a : addr) (b : EventBuffer.t) (w : World) :
  event_buffer_key w = Some a -> heap_ w !! a = Some b ->
  EventBuffer.entries_ b ≠ [] ->
  EventsHaveBeenLogged w = Some (true, w).
Proof.
  intros Hkey Hb Hne. rewrite (EventsHaveBeenLogged_run a b w Hkey Hb).
  by destruct (EventBuffer.entries_ b).
Qed.

Lemma appended_nonempty (b : EventBuffer.t) (x : Z) (es : list Z)
    (st : StringTable.t) :
  EventBuffer.entries_ (appended b (x :: es) st) ≠ [].
Proof.
  simpl. intros E. apply app_eq_nil in E as [_ E]. discriminate E.
Qed.

(** X14.  On a thread with a live buffer bound that has not overflowed and
    has room for the records, whatever entries the buffer holds,
    [EventsHaveBeenLogged] answers true after an [Invoke] of an enabled
    event, after [Enter] and [Leave] of an enabled scoped event, and after a
    block under an enabled guard. *)
Theorem logged_after_emission (ev : EventIf.enabled)
    (sc : ScopedEventIf.enabled) (args : list ArgValue) (a : addr)
    (b : EventBuffer.t) (w : World) :
  event_buffer_key w = Some a -> heap_ w !! a = Some b ->
  EventBuffer.has_room (4 + length args) b = true ->
  (exists w' : World,
     (EventIf.Invoke true ev args >> EventsHaveBeenLogged) w
     = Some (true, w'))
  /\ (exists w' : World,
        (ScopedEventIf.Enter true sc args >> ScopedEventIf.Leave true sc >>
         EventsHaveBeenLogged) w = Some (true, w'))
  /\ (exists w' : World,
        (scope_block true sc args (ret tt) >> EventsHaveBeenLogged) w
        = Some (true, w')).
Proof.
  intros Hkey Hb Hroom4.
  assert (EventBuffer.has_room (2 + length args) b = true) as Hroom
    by exact (has_room_le (2 + length args) (4 + length args) b ltac:(lia)
                Hroom4).
  set (enc := wire_encoding_list (EventBuffer.string_table_ b) args).
  set (b1 := appended b
               (record (EventIf.wire_id_ (ScopedEventIf.base sc)) w
                  (fst enc)) (snd enc)).
  assert (EventBuffer.has_room 2 b1 = true) as Hroom1.
  { apply has_room_appended. rewrite record_length. unfold enc.
    rewrite wire_encoding_list_length.
    exact (has_room_le (2 + length args + 2) (4 + length args) b
             ltac:(lia) Hroom4). }
  set (w1 := tick (update_buffer a b1 w)).
  set (b2 := appended b1 [2; timestamp w1] (EventBuffer.string_table_ b1)).
  set (w2 := tick (update_buffer a b2 w1)).
  assert (heap_ w1 !! a = Some b1) as Hb1 by apply update_buffer_lookup.
  assert (heap_ w2 !! a = Some b2) as Hb2 by apply update_buffer_lookup.
  assert (event_buffer_key w1 = Some a) as Hkey1 by exact Hkey.
  assert (event_buffer_key w2 = Some a) as Hkey2 by exact Hkey.
  split; [|split].
  - set (b0 := appended b (record (EventIf.wire_id_ ev) w (fst enc))
                 (snd enc)).
    exists (tick (update_buffer a b0 w)). unfold bind.
    rewrite (Invoke_run ev a b args w Hkey Hb Hroom). fold enc. fold b0.
    apply (logged_nonempty a b0); [exact Hkey | apply update_buffer_lookup |].
    apply appended_nonempty.
  - assert (ScopedEventIf.Enter true sc args w = Some (tt, w1)) as HE.
    { unfold ScopedEventIf.Enter, bind, PlatformGetThreadLocalEventBuffer.
      rewrite Hkey. cbn [non_null]. unfold ScopedEventIf.EnterSpecific.
      apply (InvokeSpecific_run (ScopedEventIf.base sc) a b args w Hb
               Hroom). }
    assert (ScopedEventIf.Leave true sc w1 = Some (tt, w2)) as HL.
    { unfold ScopedEventIf.Leave, bind, PlatformGetThreadLocalEventBuffer.
      rewrite Hkey1. cbn [non_null].
      apply (LeaveSpecific_run sc a b1 w1 Hb1 Hroom1). }
    exists w2. unfold bind. rewrite HE, HL.
    apply (logged_nonempty a b2 w2 Hkey2 Hb2). apply appended_nonempty.
  - exists w2. unfold bind at 1.
    rewrite (scope_block_bound sc args (ret tt) a b b1 w w1 Hkey Hb Hroom
               eq_refl Hb1 Hroom1).
    apply (logged_nonempty a b2 w2 Hkey2 Hb2). apply appended_nonempty.
Qed.

Lemma logged_after_emission_witness :
  let ev := EventIf.Enabled 100 in
  let sc := ScopedEventIf.Enabled (EventIf.Enabled 101) in
  (exists w' : World,
     (EventIf.Invoke true ev [] >> EventsHaveBeenLogged) world_bound
     = Some (true, w'))
  /\ (exists w' : World,
        (ScopedEventIf.Enter true sc [] >> ScopedEventIf.Leave true sc >>
         EventsHaveBeenLogged) world_bound = Some (true, w'))
  /\ (exists w' : World,
        (scope_block true sc [] (ret tt) >> EventsHaveBeenLogged) world_bound
        = Some (true, w')).
Proof.
  intros ev sc.
  apply (logged_after_emission ev sc [] 1%positive EventBuffer.empty
           world_bound); reflexivity.
Defined.

(** X15.  [EventsHaveBeenLogged] answers false, and the state is as before,
    after an invocation, an enter and a leave and a guarded block, when the
    thread has no buffer bound, and also when the classes are the disabled
    ones and the bound buffer was empty. *)
Theorem nothing_logged (kEnable : bool) (ev : EventIf.t kEnable)
    (sc : ScopedEventIf.t kEnable) (args : list ArgValue) (w : World) :
  event_buffer_key w = None
  \/ (kEnable = false
      /\ exists (a : addr) (b : EventBuffer.t),
           event_buffer_key w = Some a /\ heap_ w !! a = Some b
           /\ EventBuffer.entries_ b = []) ->
  (EventIf.Invoke kEnable ev args >>
   ScopedEventIf.Enter kEnable sc args >>
   ScopedEventIf.Leave kEnable sc >>
   scope_block kEnable sc args (ret tt) >>
   EventsHaveBeenLogged) w
  = Some (false, w).
Proof.
  intros [Hkey | (-> & a & b & Hkey & Hb & He)].
  - assert (EventsHaveBeenLogged w = Some (false, w)) as HL.
    { unfold EventsHaveBeenLogged, bind, PlatformGetThreadLocalEventBuffer.
      by rewrite Hkey. }
    destruct kEnable; [|exact HL].
    assert (EventIf.Invoke true ev args w = Some (tt, w)) as H1.
    { unfold EventIf.Invoke, bind, PlatformGetThreadLocalEventBuffer.
      by rewrite Hkey. }
    assert (ScopedEventIf.Enter true sc args w = Some (tt, w)) as H2.
    { unfold ScopedEventIf.Enter, bind, PlatformGetThreadLocalEventBuffer.
      by rewrite Hkey. }
    assert (ScopedEventIf.Leave true sc w = Some (tt, w)) as H3.
    { unfold ScopedEventIf.Leave, bind, PlatformGetThreadLocalEventBuffer.
      by rewrite Hkey. }
    assert (scope_block true sc args (ret tt) w = Some (tt, w)) as H4.
    { unfold scope_block, declare_scope, AutoScopeIf.ctor, AutoScopeIf.Enter,
        bind, ret, PlatformGetThreadLocalEventBuffer.
      by rewrite Hkey. }
    unfold bind. by rewrite H1, H2, H3, H4.
  - change (EventsHaveBeenLogged w = Some (false, w)).
    rewrite (EventsHaveBeenLogged_run a b w Hkey Hb), He. reflexivity.
Qed.

Lemma nothing_logged_witness :
  (EventIf.Invoke false EventIf.Disabled [V_int32 0] >>
   ScopedEventIf.Enter false ScopedEventIf.Disabled [V_int32 0] >>
   ScopedEventIf.Leave false ScopedEventIf.Disabled >>
   scope_block false ScopedEventIf.Disabled [V_int32 0] (ret tt) >>
   EventsHaveBeenLogged) world_bound
  = Some (false, world_bound).
Proof.
  apply (nothing_logged false EventIf.Disabled ScopedEventIf.Disabled
           [V_int32 0] world_bound).
  right. split; [reflexivity|].
  exists 1%positive, EventBuffer.empty. repeat split.
Defined.

(** ** The argument zipper *)

(** X16.  [ZipArgumentsHelper<k, kSize>::Zip] instantiates exactly when
    [kSize] is [k] plus the number of types, and then calls [ZipArgument]
    once for each type, in the order of the type list, with the indices
    [k], [k + 1], ...; so [ArgumentZipper] always instantiates and numbers
    the arguments from 0. *)
Theorem Zip_calls (ZipState : Type) (ArgTypeDef_name : ArgType -> string)
    (ZipArgument : nat -> string -> ZipState -> ZipState)
    (ArgTypes : list ArgType) :
  let calls (k : nat) (st : ZipState) :=
    fold_left (fun s p => ZipArgument p.1 (ArgTypeDef_name p.2) s)
      (zip (seq k (length ArgTypes)) ArgTypes) st in
  (forall (k kSize : nat) (st : ZipState),
     Zip ZipState ArgTypeDef_name ZipArgument k kSize ArgTypes st
     = if decide (kSize = (k + length ArgTypes)%nat)
       then Some (calls k st) else None)
  /\ (forall st : ZipState,
        ArgumentZipper ZipState ArgTypeDef_name ZipArgument ArgTypes st
        = Some (calls 0%nat st)).
Proof.
  intros calls. subst calls.
  assert (forall (k kSize : nat) (st : ZipState),
            Zip ZipState ArgTypeDef_name ZipArgument k kSize ArgTypes st
            = if decide (kSize = (k + length ArgTypes)%nat)
              then Some (fold_left
                           (fun s p => ZipArgument p.1 (ArgTypeDef_name p.2) s)
                           (zip (seq k (length ArgTypes)) ArgTypes) st)
              else None) as HZ.
  { induction ArgTypes as [|T rest IH]; intros k kSize st; cbn [Zip].
    - destruct (Nat.eqb_spec k kSize) as [->|Hne]; simpl;
        case_decide; try reflexivity; lia.
    - destruct (Nat.eqb_spec k kSize) as [->|Hne].
      + case_decide; [simpl in *; lia | reflexivity].
      + rewrite IH. cbn [length seq zip zip_with fold_left fst snd].
        repeat case_decide; try reflexivity; lia. }
  split; [exact HZ|].
  intros st. unfold ArgumentZipper. rewrite HZ.
  case_decide; [reflexivity | lia].
Qed.
